(** * Synchronized lyrics player: LRC parser, cue tracker, playback state
      machine and socket reconciliation of [main.js], embedded in Rocq.

    Conventions of the embedding.
    - A JavaScript string is the list of its UTF-16 code units ([N]).
    - A JavaScript number that carries a time, a position or a volume is a
      finite double, written as the rational it denotes ([Q]).  A comparison
      of two doubles is the comparison of their values.  An arithmetic
      operation whose result the code uses as a number is rounded to the
      nearest double, ties to even ([JsNumber.round64]): the cue time of a
      timed line and the distance a [playerState] message is measured by.
      A decimal literal of the source is [JsNumber.literal], the double
      nearest to it.
    - [Array.prototype.sort] is the stable sort ECMAScript 2019 requires.
    - The media element, the timers, the socket and the DOM are host
      objects.  The element is a record of what the player reads back from
      it, and it reports the position, volume and paused flag last written;
      every command a method issues to a host object is recorded, in order,
      in the trace the method returns.  What Foundry does on
      [Application.render] is not part of the model.
    - An [async] method runs up to its first [await] and returns to the
      event loop; what follows the [await] is a step of its own, which the
      event loop runs later, after anything else that came in between. *)

From Stdlib Require Import String Ascii.
From Stdlib Require Import List ZArith NArith QArith Qabs Bool Lia.
From Stdlib Require Import Sorted Permutation Qround Qpower Lqa.
Import ListNotations.

Local Open Scope Z_scope.

(* ================================================================== *)
(** ** Strings *)

Module JsString.

Definition jsstring := list N.

Definition code (a : ascii) : N := N_of_ascii a.

(** A string literal of the source (ASCII) as code units. *)
Definition lit (s : string) : jsstring := map N_of_ascii (list_ascii_of_string s).

(** [\d] *)
Definition is_digit (c : N) : bool := ((48 <=? c) && (c <=? 57))%N.

(** [\w] *)
Definition is_word (c : N) : bool :=
  (is_digit c || ((65 <=? c) && (c <=? 90)) || ((97 <=? c) && (c <=? 122)) || (c =? 95))%N.

(** LineTerminator: LF, CR, LS, PS. *)
Definition is_line_terminator (c : N) : bool :=
  ((c =? 10) || (c =? 13) || (c =? 8232) || (c =? 8233))%N.

(** [.] (no [s] flag): any code unit but a line terminator. *)
Definition is_dot (c : N) : bool := negb (is_line_terminator c).

(** WhiteSpace and LineTerminator, what [String.prototype.trim] strips. *)
Definition is_white (c : N) : bool :=
  (((9 <=? c) && (c <=? 13)) || (c =? 32) || (c =? 160) || (c =? 5760)
   || ((8192 <=? c) && (c <=? 8202)) || (c =? 8232) || (c =? 8233)
   || (c =? 8239) || (c =? 8287) || (c =? 12288) || (c =? 65279))%N.

Fixpoint trimStart (s : jsstring) : jsstring :=
  match s with
  | c :: s' => if is_white c then trimStart s' else s
  | [] => []
  end.

Definition trimEnd (s : jsstring) : jsstring := rev (trimStart (rev s)).

Definition trim (s : jsstring) : jsstring := trimEnd (trimStart s).

(** [s.split(sep)] for a one-unit separator: never the empty array. *)
Fixpoint split (sep : N) (s : jsstring) : list jsstring :=
  match s with
  | [] => [[]]
  | c :: s' =>
      if (c =? sep)%N then [] :: split sep s'
      else match split sep s' with
           | l :: ls => (c :: l) :: ls
           | [] => [[c]]
           end
  end.

(** [s.padEnd(n, c)] for a one-unit filler. *)
Definition padEnd (n : nat) (c : N) (s : jsstring) : jsstring :=
  s ++ repeat c (n - length s).

Definition digit_value (c : N) : Z := Z.of_N (c - 48).

Fixpoint parseInt_from (acc : Z) (s : jsstring) : Z :=
  match s with
  | c :: s' => if is_digit c then parseInt_from (10 * acc + digit_value c) s' else acc
  | [] => acc
  end.

(** [parseInt(s)] on the strings the parser hands it, runs of decimal
    digits: the value of the leading digits in base ten. *)
Definition parseInt (s : jsstring) : Z := parseInt_from 0 s.

Definition eqb (a b : jsstring) : bool :=
  if list_eq_dec N.eq_dec a b then true else false.

End JsString.

(* ================================================================== *)
(** ** Regular expressions

    The two patterns of the parser are sequences of atoms, each a
    character class under a greedy quantifier, some of them capturing.
    [exec] is the backtracking matcher at one position, [search] the
    unanchored [String.prototype.match]: the leftmost position that
    matches wins. *)

Module Regex.
Import JsString.

Record atom := {
  cls : N -> bool;          (* the character class *)
  lo : nat;                 (* least number of repetitions *)
  hi : option nat;          (* most, [None] for unbounded *)
  capt : bool               (* inside a capturing group *)
}.

(** [\c]: one literal character. *)
Definition chr (a : ascii) : atom :=
  {| cls := N.eqb (code a); lo := 1%nat; hi := Some 1%nat; capt := false |}.

(** [(p{lo,hi})] *)
Definition group (p : N -> bool) (lo : nat) (hi : option nat) : atom :=
  {| cls := p; lo := lo; hi := hi; capt := true |}.

Fixpoint span_len (p : N -> bool) (s : jsstring) : nat :=
  match s with
  | c :: s' => if p c then S (span_len p s') else 0%nat
  | [] => 0%nat
  end.

(** What a greedy quantifier takes first. *)
Definition greedy (a : atom) (s : jsstring) : nat :=
  match hi a with
  | Some h => Nat.min h (span_len (cls a) s)
  | None => span_len (cls a) s
  end.

(** Give back one character at a time, down to [lo], until the rest of
    the pattern [k] matches. *)
Fixpoint backtrack {R : Type} (k : jsstring -> option R) (s : jsstring)
         (lo n : nat) : option (nat * R) :=
  if (n <? lo)%nat then None
  else match k (skipn n s) with
       | Some r => Some (n, r)
       | None => match n with
                 | O => None
                 | S n' => backtrack k s lo n'
                 end
       end.

(** The captures of a match of [re] that starts at the head of [s]. *)
Fixpoint exec (re : list atom) (s : jsstring) : option (list jsstring) :=
  match re with
  | [] => Some []
  | a :: re' =>
      match backtrack (exec re') s (lo a) (greedy a s) with
      | Some (n, caps) => Some (if capt a then firstn n s :: caps else caps)
      | None => None
      end
  end.

(** [s.match(re)]: the captures of the leftmost match. *)
Fixpoint search (re : list atom) (s : jsstring) : option (list jsstring) :=
  match exec re s with
  | Some caps => Some caps
  | None => match s with
            | [] => None
            | _ :: s' => search re s'
            end
  end.

End Regex.

(* ================================================================== *)
(** ** Array.prototype.sort *)

Module JsArray.

Definition Qltb (a b : Q) : bool := negb (Qle_bool b a).

Section Sort.
Context {A : Type} (compareFn : A -> A -> Q).

(** [x] stood before every element of [l]: it moves right past [y]
    only when [compareFn x y > 0]. *)
Fixpoint insert (x : A) (l : list A) : list A :=
  match l with
  | [] => [x]
  | y :: l' => if Qltb 0 (compareFn x y) then y :: insert x l' else x :: l
  end.

(** [arr.sort(compareFn)]: the sort is stable (ECMAScript 2019), so for a
    consistent comparator its result is the one of a stable insertion
    sort. *)
Fixpoint sort (l : list A) : list A :=
  match l with
  | [] => []
  | x :: l' => insert x (sort l')
  end.
End Sort.

End JsArray.

(* ================================================================== *)
(** ** Numbers

    A finite double is the rational it denotes.  [round64] is the rounding
    of IEEE 754 binary64 arithmetic: to the nearest number with a
    significand of 53 bits, or a multiple of [2 ^ -1074] below the normal
    range, a tie going to the even significand.  An operation of the source
    is the exact operation followed by [round64].  Above the largest double
    the source has [Infinity]; the numbers of the player stay far below, and
    the model goes on rounding to 53 bits there. *)

Module JsNumber.

Definition pow2 (e : Z) : Q := (2 ^ e)%Q.

(** The integer part of the binary logarithm of [q > 0]: it is the
    difference of the logarithms of numerator and denominator, or one
    less. *)
Definition ilog2 (q : Q) : Z :=
  let k := Z.log2 (Qnum q) - Z.log2 (Z.pos (Qden q)) in
  if Qle_bool (pow2 k) q then k else k - 1.

(** The nearest integer, the even one of two that are equally near. *)
Definition nearest_even (q : Q) : Z :=
  let f := Qfloor q in
  match (q - inject_Z f ?= 1 # 2)%Q with
  | Lt => f
  | Gt => f + 1
  | Eq => if Z.even f then f else f + 1
  end.

(** The exponent of the last place of the double nearest to [q]. *)
Definition quantum (q : Q) : Z := Z.max (-1074) (ilog2 (Qabs q) - 52).

Definition round64 (q : Q) : Q :=
  if Qeq_bool q 0 then 0%Q
  else Qred (inject_Z (nearest_even (q / pow2 (quantum q))) * pow2 (quantum q)).

(** [a + b], [a - b], [a * b], [a / b] *)
Definition add64 (a b : Q) : Q := round64 (a + b).
Definition sub64 (a b : Q) : Q := round64 (a - b).
Definition mul64 (a b : Q) : Q := round64 (a * b).
Definition div64 (a b : Q) : Q := round64 (a / b).

(** The decimal literal whose value is [n / d]. *)
Definition literal (n : Z) (d : positive) : Q := round64 (n # d).

End JsNumber.

(* ================================================================== *)
(** ** LRCParser *)

Module LRCParser.
Import JsString Regex JsNumber.

Record Cue := { time : Q; text : jsstring }.

(** The [metadata] object: its own properties, in the order they were
    created. *)
Definition Metadata := list (jsstring * jsstring).

Record Parsed := { lyrics : list Cue; metadata : Metadata }.

(** The pattern of a timed line: [\[(\d{2}):(\d{2})\.(\d{2,3})\]], then a
    capturing group of any number of [.]. *)
Definition timeRe : list atom :=
  [ chr "["; group is_digit 2%nat (Some 2%nat); chr ":"; group is_digit 2%nat (Some 2%nat);
    chr "."; group is_digit 2%nat (Some 3%nat); chr "]"; group is_dot 0%nat None ].

(** The pattern of a metadata line: [\[(\w+):], a capturing group of any
    number of [.], then [\]]. *)
Definition metaRe : list atom :=
  [ chr "["; group is_word 1%nat None; chr ":"; group is_dot 0%nat None; chr "]" ].

(** [metadata[k] = v] for a string [v]: an existing property keeps its
    place, a new one goes last; the key [__proto__] reaches the inherited
    setter, which ignores a value that is no object. *)
Fixpoint assign (k v : jsstring) (m : Metadata) : Metadata :=
  match m with
  | [] => [(k, v)]
  | (k', v') :: m' => if eqb k k' then (k, v) :: m' else (k', v') :: assign k v m'
  end.

Definition set_property (k v : jsstring) (m : Metadata) : Metadata :=
  if eqb k (lit "__proto__") then m else assign k v m.

(** [minutes * 60 + seconds + milliseconds / 1000]: the product, the
    quotient and the two sums, each rounded, in the order the expression is
    evaluated in. *)
Definition timeInSeconds (minutes seconds milliseconds : Z) : Q :=
  add64 (add64 (mul64 (inject_Z minutes) 60) (inject_Z seconds))
        (div64 (inject_Z milliseconds) 1000).

(** The body of the loop over the lines.  A match of the timed pattern has
    four groups and one of the metadata pattern two; the other shapes of the
    capture list do not occur. *)
Definition parse_line (acc : list Cue * Metadata) (line : jsstring)
  : list Cue * Metadata :=
  let '(lyrics, metadata) := acc in
  match search timeRe line with
  | Some [g1; g2; g3; g4] =>
      let minutes := parseInt g1 in
      let seconds := parseInt g2 in
      let milliseconds := parseInt (padEnd 3 (code "0") g3) in
      let text := trim g4 in
      (lyrics ++ [{| time := timeInSeconds minutes seconds milliseconds; text := text |}],
       metadata)
  | Some _ => acc
  | None =>
      match search metaRe line with
      | Some [k; v] => (lyrics, set_property k v metadata)
      | _ => acc
      end
  end.

Definition compareTime (a b : Cue) : Q := (time a - time b)%Q.

Definition parse (lrcContent : jsstring) : Parsed :=
  let lines := split (code "010") lrcContent in
  let '(lyrics, metadata) := fold_left parse_line lines ([], []) in
  {| lyrics := JsArray.sort compareTime lyrics; metadata := metadata |}.

End LRCParser.

(* ================================================================== *)
(** ** Host objects: the media element, timers, the socket, the DOM *)

Module Host.
Import JsString.

(** What the player reads back from an [Audio] element.  [src] names the
    object URL it was created from, [duration] is [None] until the
    metadata is there, [onended] tells whether an [ended] listener was
    attached. *)
Record Audio := {
  src : nat;
  currentTime : Q;
  duration : option Q;
  volume : Q;
  paused : bool;
  onended : bool
}.

(** [new Audio(url)] *)
Definition newAudio (url : nat) : Audio :=
  {| src := url; currentTime := 0%Q; duration := None; volume := 1%Q;
     paused := true; onended := false |}.

Definition with_currentTime (t : Q) (a : Audio) : Audio :=
  {| src := src a; currentTime := t; duration := duration a; volume := volume a;
     paused := paused a; onended := onended a |}.

Definition with_duration (d : option Q) (a : Audio) : Audio :=
  {| src := src a; currentTime := currentTime a; duration := d; volume := volume a;
     paused := paused a; onended := onended a |}.

Definition with_volume (v : Q) (a : Audio) : Audio :=
  {| src := src a; currentTime := currentTime a; duration := duration a; volume := v;
     paused := paused a; onended := onended a |}.

Definition with_paused (b : bool) (a : Audio) : Audio :=
  {| src := src a; currentTime := currentTime a; duration := duration a;
     volume := volume a; paused := b; onended := onended a |}.

Definition with_onended (b : bool) (a : Audio) : Audio :=
  {| src := src a; currentTime := currentTime a; duration := duration a;
     volume := volume a; paused := paused a; onended := b |}.

Record File := { name : jsstring; type : jsstring; content : jsstring }.

(** The messages of the socket [module.synchronized-lyrics-player], by
    their [type] field. *)
Inductive Message :=
| loadAudio (data fileName mimeType : jsstring)
| loadLrc (content fileName : jsstring)
| playerState (isPlaying : bool) (currentTime volume : Q)
| otherType.

(** The commands issued to host objects. *)
Inductive Event :=
| CreateObjectURL (url : nat)
| AudioPlay (src : nat)                 (* audio.play() *)
| AudioPause (src : nat)                (* audio.pause() *)
| AudioSeek (src : nat) (t : Q)         (* audio.currentTime = t *)
| AudioVolume (src : nat) (v : Q)       (* audio.volume = v *)
| SetInterval (handle : nat)
| ClearInterval (handle : nat)
| RenderLyrics                          (* _renderLyrics() *)
| ProgressBar                           (* _updateProgressBar() on the DOM *)
| Render                                (* Application.render() *)
| Emit (m : Message)                    (* game.socket.emit *)
| SaveState (volume : Q) (audioFileName lrcFileName : option jsstring)
| Warn.

(** [game.user.isGM] and the supply of fresh timer handles and object
    URLs. *)
Record Env := { isGM : bool; timerSeq : nat; urlSeq : nat }.

End Host.

(* ================================================================== *)
(** ** LyricsPlayerApp *)

Module LyricsPlayerApp.
Import JsString LRCParser Host.

(** The fields the constructor declares. *)
Record App := {
  audio : option Audio;
  lyrics : list Cue;
  currentLyricIndex : Z;
  isPlaying : bool;
  updateInterval : option nat;
  audioFile : option jsstring;     (* the name of the file *)
  lrcFile : option jsstring
}.

Definition constructor : App :=
  {| audio := None; lyrics := []; currentLyricIndex := 0; isPlaying := false;
     updateInterval := None; audioFile := None; lrcFile := None |}.

Definition set_audio (x : option Audio) (p : App) : App :=
  {| audio := x; lyrics := lyrics p; currentLyricIndex := currentLyricIndex p;
     isPlaying := isPlaying p; updateInterval := updateInterval p;
     audioFile := audioFile p; lrcFile := lrcFile p |}.

Definition set_lyrics (x : list Cue) (p : App) : App :=
  {| audio := audio p; lyrics := x; currentLyricIndex := currentLyricIndex p;
     isPlaying := isPlaying p; updateInterval := updateInterval p;
     audioFile := audioFile p; lrcFile := lrcFile p |}.

Definition set_currentLyricIndex (x : Z) (p : App) : App :=
  {| audio := audio p; lyrics := lyrics p; currentLyricIndex := x;
     isPlaying := isPlaying p; updateInterval := updateInterval p;
     audioFile := audioFile p; lrcFile := lrcFile p |}.

Definition set_isPlaying (x : bool) (p : App) : App :=
  {| audio := audio p; lyrics := lyrics p; currentLyricIndex := currentLyricIndex p;
     isPlaying := x; updateInterval := updateInterval p;
     audioFile := audioFile p; lrcFile := lrcFile p |}.

Definition set_updateInterval (x : option nat) (p : App) : App :=
  {| audio := audio p; lyrics := lyrics p; currentLyricIndex := currentLyricIndex p;
     isPlaying := isPlaying p; updateInterval := x;
     audioFile := audioFile p; lrcFile := lrcFile p |}.

Definition set_audioFile (x : option jsstring) (p : App) : App :=
  {| audio := audio p; lyrics := lyrics p; currentLyricIndex := currentLyricIndex p;
     isPlaying := isPlaying p; updateInterval := updateInterval p;
     audioFile := x; lrcFile := lrcFile p |}.

Definition set_lrcFile (x : option jsstring) (p : App) : App :=
  {| audio := audio p; lyrics := lyrics p; currentLyricIndex := currentLyricIndex p;
     isPlaying := isPlaying p; updateInterval := updateInterval p;
     audioFile := audioFile p; lrcFile := x |}.

(** *** The monad of a method call: [this], the environment, and the
    commands issued. *)

Record Ctx := { this : App; env : Env }.

Definition M (A : Type) : Type := Ctx -> A * Ctx * list Event.

Definition ret {A} (x : A) : M A := fun c => (x, c, []).

Definition bind {A B} (m : M A) (k : A -> M B) : M B :=
  fun c => let '(x, c1, e1) := m c in
           let '(y, c2, e2) := k x c1 in
           (y, c2, e1 ++ e2).

Notation "x <- m ;; k" := (bind m (fun x => k))
  (at level 61, m at next level, right associativity).
Notation "m ;; k" := (bind m (fun _ => k))
  (at level 61, right associativity).

Definition get : M App := fun c => (this c, c, []).

Definition modify (f : App -> App) : M unit :=
  fun c => (tt, {| this := f (this c); env := env c |}, []).

Definition emit (e : Event) : M unit := fun c => (tt, c, [e]).

Definition userIsGM : M bool := fun c => (isGM (env c), c, []).

Definition freshTimer : M nat :=
  fun c => let h := S (timerSeq (env c)) in
           (h, {| this := this c;
                  env := {| isGM := isGM (env c); timerSeq := h; urlSeq := urlSeq (env c) |} |},
            []).

Definition freshURL : M nat :=
  fun c => let u := S (urlSeq (env c)) in
           (u, {| this := this c;
                  env := {| isGM := isGM (env c); timerSeq := timerSeq (env c); urlSeq := u |} |},
            []).

(** The state a method leaves and the commands it issued. *)
Definition after {A} (m : M A) (c : Ctx) : Ctx := snd (fst (m c)).
Definition issued {A} (m : M A) (c : Ctx) : list Event := snd (m c).

(** *** Commands on the element held in [this.audio]

    Every call site has tested [this.audio] before. *)

Definition on_this_audio (command : nat -> Event) (f : Audio -> Audio) : M unit :=
  p <- get ;;
  match audio p with
  | Some a => emit (command (src a)) ;; modify (set_audio (Some (f a)))
  | None => ret tt
  end.

Definition audio_pause : M unit := on_this_audio AudioPause (with_paused true).

Definition audio_play : M unit := on_this_audio AudioPlay (with_paused false).

Definition audio_set_currentTime (t : Q) : M unit :=
  on_this_audio (fun s => AudioSeek s t) (with_currentTime t).

Definition audio_set_volume (v : Q) : M unit :=
  on_this_audio (fun s => AudioVolume s v) (with_volume v).

Definition audio_paused : M bool :=
  p <- get ;;
  ret (match audio p with Some a => paused a | None => true end).

(** *** Broadcasts *)

Definition _broadcastAudioLoad (audioData fileName mimeType : jsstring) : M unit :=
  gm <- userIsGM ;;
  if negb gm then ret tt else emit (Emit (loadAudio audioData fileName mimeType)).

Definition _broadcastLrcLoad (lrcContent fileName : jsstring) : M unit :=
  gm <- userIsGM ;;
  if negb gm then ret tt else emit (Emit (loadLrc lrcContent fileName)).

Definition _broadcastState : M unit :=
  gm <- userIsGM ;;
  if negb gm then ret tt
  else
    p <- get ;;
    emit (Emit (playerState (isPlaying p)
                  (match audio p with Some a => currentTime a | None => 0%Q end)
                  (match audio p with Some a => volume a | None => (1 # 2)%Q end))).

Definition _saveState : M unit :=
  p <- get ;;
  emit (SaveState (match audio p with Some a => volume a | None => (1 # 2)%Q end)
          (audioFile p) (lrcFile p)).

Definition render : M unit := emit Render.

(** *** The sampling loop *)

Definition _stopUpdate : M unit :=
  p <- get ;;
  match updateInterval p with
  | Some h => emit (ClearInterval h) ;; modify (set_updateInterval None)
  | None => ret tt
  end.

Definition _startUpdate : M unit :=
  _stopUpdate ;;
  h <- freshTimer ;;
  emit (SetInterval h) ;;
  modify (set_updateInterval (Some h)).

Definition _renderLyrics : M unit := emit RenderLyrics.

(** The loop [for (i = n - 1; i >= 0; i--)] of [_updateLyrics], entered
    with [n = lyrics.length]: the first [i] met whose cue has started, or
    the initial [-1]. *)
Fixpoint scan (lyrics : list Cue) (currentTime : Q) (n : nat) : Z :=
  match n with
  | O => -1
  | S i =>
      match nth_error lyrics i with
      | Some cue => if Qle_bool (time cue) currentTime then Z.of_nat i
                    else scan lyrics currentTime i
      | None => scan lyrics currentTime i
      end
  end.

Definition currentIndex (lyrics : list Cue) (currentTime : Q) : Z :=
  scan lyrics currentTime (length lyrics).

Definition _updateLyrics : M unit :=
  p <- get ;;
  match audio p, lyrics p with
  | None, _ => ret tt
  | Some _, [] => ret tt
  | Some a, _ :: _ =>
      let currentIndex := currentIndex (lyrics p) (currentTime a) in
      if currentIndex =? currentLyricIndex p then ret tt
      else modify (set_currentLyricIndex currentIndex) ;; _renderLyrics
  end.

Definition _updateProgressBar : M unit :=
  p <- get ;;
  match audio p with
  | None => ret tt
  | Some _ => emit ProgressBar
  end.

(** The callback given to [setInterval]. *)
Definition tick : M unit := _updateLyrics ;; _updateProgressBar.

(** *** Transport control *)

Definition _play : M unit :=
  p <- get ;;
  match audio p with
  | None => ret tt
  | Some a =>
      audio_play ;;
      modify (set_isPlaying true) ;;
      _startUpdate ;;
      _broadcastState ;;
      render
  end.

Definition _pause : M unit :=
  p <- get ;;
  match audio p with
  | None => ret tt
  | Some a =>
      audio_pause ;;
      modify (set_isPlaying false) ;;
      _stopUpdate ;;
      _broadcastState ;;
      render
  end.

Definition _onPlayPause : M unit :=
  p <- get ;;
  match audio p with
  | None => emit Warn
  | Some _ => if isPlaying p then _pause else _play
  end.

Definition _onVolumeChange (volume : Q) : M unit :=
  p <- get ;;
  match audio p with
  | Some _ => audio_set_volume volume
  | None => ret tt
  end ;;
  _saveState ;;
  _broadcastState.

Definition _onSeek (time : Q) : M unit :=
  p <- get ;;
  match audio p with
  | None => ret tt
  | Some a =>
      audio_set_currentTime time ;;
      _updateLyrics ;;
      _broadcastState
  end.

(** *** Loading content *)

Definition _loadAudioFile (file : File) : M unit :=
  p <- get ;;
  match audio p with
  | Some _ => audio_pause ;; modify (set_audio None)
  | None => ret tt
  end ;;
  url <- freshURL ;;
  emit (CreateObjectURL url) ;;
  modify (set_audio (Some (with_onended true (newAudio url)))) ;;
  _broadcastAudioLoad (content file) (name file) (type file).

Fixpoint startsWith (prefix s : jsstring) : bool :=
  match prefix, s with
  | [], _ => true
  | a :: prefix', b :: s' => (a =? b)%N && startsWith prefix' s'
  | _ :: _, [] => false
  end.

Definition endsWith (suffix s : jsstring) : bool := startsWith (rev suffix) (rev s).

Definition _onAudioUpload (file : option File) : M unit :=
  match file with
  | None => emit Warn
  | Some f =>
      if negb (startsWith (lit "audio/") (type f)) then emit Warn
      else
        modify (set_audioFile (Some (name f))) ;;
        _loadAudioFile f ;;
        _saveState ;;
        render
  end.

Definition _loadLrcFile (file : File) : M unit :=
  let text := content file in
  let parsed := LRCParser.parse text in
  modify (set_lyrics (LRCParser.lyrics parsed)) ;;
  _broadcastLrcLoad text (name file).

Definition _onLrcUpload (file : option File) : M unit :=
  match file with
  | None => emit Warn
  | Some f =>
      if negb (endsWith (lit ".lrc") (name f)) then emit Warn
      else
        modify (set_lrcFile (Some (name f))) ;;
        _loadLrcFile f ;;
        _saveState ;;
        render
  end.

(** *** An upload, from one [await] to the next

    [_onAudioUpload] and [_loadAudioFile] above are the call run through.
    In the event loop the call comes in three steps.  [_onAudioUpload]
    names the file and calls [_loadAudioFile], which drops the element it
    had and stops at [await file.arrayBuffer()]; when the bytes are there the
    rest of [_loadAudioFile] runs; when that has settled, the rest of
    [_onAudioUpload].  [_onLrcUpload] names the file and calls
    [_loadLrcFile], which stops at [await file.text()] before it does
    anything: all of [_loadLrcFile] is the step after that [await]. *)

Definition _onAudioUpload_to_await (file : option File) : M unit :=
  match file with
  | None => emit Warn
  | Some f =>
      if negb (startsWith (lit "audio/") (type f)) then emit Warn
      else
        modify (set_audioFile (Some (name f))) ;;
        p <- get ;;
        match audio p with
        | Some _ => audio_pause ;; modify (set_audio None)
        | None => ret tt
        end
  end.

Definition _loadAudioFile_from_await (file : File) : M unit :=
  url <- freshURL ;;
  emit (CreateObjectURL url) ;;
  modify (set_audio (Some (with_onended true (newAudio url)))) ;;
  _broadcastAudioLoad (content file) (name file) (type file).

Definition _onAudioUpload_from_await : M unit := _saveState ;; render.

Definition _onLrcUpload_to_await (file : option File) : M unit :=
  match file with
  | None => emit Warn
  | Some f =>
      if negb (endsWith (lit ".lrc") (name f)) then emit Warn
      else modify (set_lrcFile (Some (name f)))
  end.

Definition _onLrcUpload_from_await : M unit := _saveState ;; render.

Definition close : M unit :=
  _stopUpdate ;;
  p <- get ;;
  match audio p with
  | Some _ => audio_pause
  | None => ret tt
  end.

(** *** Listeners attached in [_loadAudioFile] *)

Definition on_loadedmetadata : M unit := render.

Definition on_ended : M unit :=
  modify (set_isPlaying false) ;;
  _stopUpdate ;;
  _broadcastState ;;
  render.

End LyricsPlayerApp.

(* ================================================================== *)
(** ** The socket handler and the event loop *)

Module Socket.
Import JsString JsNumber LRCParser Host LyricsPlayerApp.

(** [game]: the shared player, once one was made, and the environment. *)
Record Game := { lyricsPlayer : option App; genv : Env }.

Definition Qgtb (a b : Q) : bool := negb (Qle_bool a b).

(** The [switch (data.type)] of [handleSocketMessage], run on [player]. *)
Definition dispatch (data : Message) : M unit :=
  match data with
  | loadAudio bytes fileName mimeType =>
      url <- freshURL ;;
      emit (CreateObjectURL url) ;;
      player <- get ;;
      match audio player with
      | Some _ => audio_pause
      | None => ret tt
      end ;;
      modify (set_audio (Some (newAudio url))) ;;
      modify (set_audioFile (Some fileName))
  | loadLrc content fileName =>
      let parsed := LRCParser.parse content in
      modify (set_lyrics (LRCParser.lyrics parsed)) ;;
      modify (set_lrcFile (Some fileName)) ;;
      render
  | playerState dataIsPlaying dataCurrentTime dataVolume =>
      player <- get ;;
      match audio player with
      | None => ret tt
      | Some a =>
          (if Qgtb (Qabs (sub64 (currentTime a) dataCurrentTime)) 1
           then audio_set_currentTime dataCurrentTime
           else ret tt) ;;
          audio_set_volume dataVolume ;;
          isPaused <- audio_paused ;;
          if dataIsPlaying && isPaused then
            audio_play ;;
            modify (set_isPlaying true) ;;
            _startUpdate
          else if negb dataIsPlaying && negb isPaused then
            audio_pause ;;
            modify (set_isPlaying false) ;;
            _stopUpdate
          else ret tt
      end
  | otherType => ret tt
  end.

(** Run a method on the shared player. *)
Definition call (m : M unit) (player : App) (g : Game) : Game * list Event :=
  let '(_, c, tr) := m {| this := player; env := genv g |} in
  ({| lyricsPlayer := Some (this c); genv := env c |}, tr).

Definition handleSocketMessage (data : Message) (g : Game) : Game * list Event :=
  let player := match lyricsPlayer g with
                | Some p => p
                | None => constructor
                end in
  call (dispatch data) player g.

(** What a method that stopped at an [await] waits for. *)
Inductive Await :=
| AudioBytes (file : File)      (* [file.arrayBuffer()], in [_loadAudioFile] *)
| AudioLoaded                   (* [this._loadAudioFile(file)], in [_onAudioUpload] *)
| LrcText (file : File)         (* [file.text()], in [_loadLrcFile] *)
| LrcLoaded.                    (* [this._loadLrcFile(file)], in [_onLrcUpload] *)

(** What the event loop can run next: a control of the window, the
    interval timer, a socket message, a notification of the media element,
    or the rest of a method whose [await] has settled. *)
Inductive Action :=
| OpenPlayer
| AudioUpload (file : option File)
| LrcUpload (file : option File)
| PlayPause
| VolumeChange (volume : Q)
| SeekTo (time : Q)
| Close
| Tick
| Receive (data : Message)
| LoadedMetadata (duration : Q)
| Ended
| Elapse (dt : Q)
| Resume (w : Await).

Definition on_player (m : M unit) (g : Game) : Game * list Event :=
  match lyricsPlayer g with
  | Some p => call m p g
  | None => (g, [])
  end.

Definition on_audio (f : Audio -> M unit) : M unit :=
  p <- get ;;
  match audio p with
  | Some a => f a
  | None => ret tt
  end.

Definition step (act : Action) (g : Game) : Game * list Event :=
  match act with
  | OpenPlayer =>
      match lyricsPlayer g with
      | Some _ => (g, [Render])
      | None => ({| lyricsPlayer := Some constructor; genv := genv g |}, [Render])
      end
  | AudioUpload file => on_player (_onAudioUpload_to_await file) g
  | LrcUpload file => on_player (_onLrcUpload_to_await file) g
  | PlayPause => on_player _onPlayPause g
  | VolumeChange v => on_player (_onVolumeChange v) g
  | SeekTo t => on_player (_onSeek t) g
  | Close => on_player close g
  | Tick =>
      on_player (p <- get ;;
                 match updateInterval p with
                 | Some _ => tick
                 | None => ret tt
                 end) g
  | Receive data => handleSocketMessage data g
  | LoadedMetadata d =>
      on_player (on_audio (fun a =>
        modify (set_audio (Some (with_duration (Some d) a))) ;; on_loadedmetadata)) g
  | Ended =>
      on_player (on_audio (fun a =>
        modify (set_audio (Some (with_paused true a))) ;;
        if onended a then on_ended else ret tt)) g
  | Elapse dt =>
      on_player (on_audio (fun a =>
        if paused a || Qle_bool dt 0 then ret tt
        else modify (set_audio (Some (with_currentTime (add64 (currentTime a) dt) a))))) g
  | Resume (AudioBytes file) => on_player (_loadAudioFile_from_await file) g
  | Resume AudioLoaded => on_player _onAudioUpload_from_await g
  | Resume (LrcText file) => on_player (_loadLrcFile file) g
  | Resume LrcLoaded => on_player _onLrcUpload_from_await g
  end.

Definition game0 (gm : bool) : Game :=
  {| lyricsPlayer := None; genv := {| isGM := gm; timerSeq := 0; urlSeq := 0 |} |}.

Fixpoint run (acts : list Action) (g : Game) : Game :=
  match acts with
  | [] => g
  | a :: acts' => run acts' (fst (step a g))
  end.

(** *** Which runs the event loop can make

    The rest of a method runs once, and only after the method stopped at
    the [await]. *)







End Socket.

(* ================================================================== *)
(** ** The LRC line format, in the words of the format *)

Module LrcFormat.
Import JsString LRCParser.

(** [d] is a run of exactly [n] decimal digits. *)
Definition digits (n : nat) (d : jsstring) : Prop :=
  length d = n /\ forallb is_digit d = true.

(** The text of a time tag, minutes, seconds and fraction between
    brackets. *)
Definition time_tag (mm ss ff : jsstring) : jsstring :=
  lit "[" ++ mm ++ lit ":" ++ ss ++ lit "." ++ ff ++ lit "]".

Definition is_time_tag (mm ss ff : jsstring) : Prop :=
  digits 2 mm /\ digits 2 ss /\ (digits 2 ff \/ digits 3 ff).

(** A time tag stands in [line] after the prefix [pre]. *)
Definition tag_at (line pre mm ss ff post : jsstring) : Prop :=
  is_time_tag mm ss ff /\ line = pre ++ time_tag mm ss ff ++ post.

(** It is the leftmost tag of the line. *)
Definition leftmost_tag (line pre mm ss ff post : jsstring) : Prop :=
  tag_at line pre mm ss ff post /\
  forall pre' mm' ss' ff' post',
    tag_at line pre' mm' ss' ff' post' -> (length pre <= length pre')%nat.

(** The number a run of digits denotes in base ten. *)
Definition decimal (d : jsstring) : Z :=
  fold_left (fun acc c => 10 * acc + digit_value c) d 0.

(** The milliseconds a fraction of two or three digits stands for: [50]
    is 500 ms, [123] is 123 ms. *)
Definition millis (ff : jsstring) : Z :=
  decimal ff * 10 ^ (3 - Z.of_nat (length ff)).

(** The part of [s] before its first line terminator. *)
Fixpoint before_terminator (s : jsstring) : jsstring :=
  match s with
  | c :: s' => if is_line_terminator c then [] else c :: before_terminator s'
  | [] => []
  end.

(** The cues the loop body pushes for one line, and the cues of a text in
    the order of its lines, before the sort. *)
Definition cues_of_line (line : jsstring) : list Cue :=
  fst (parse_line ([], []) line).

Definition cues_in_file_order (lrcContent : jsstring) : list Cue :=
  flat_map cues_of_line (split (code "010") lrcContent).

Definition at_time (q : Q) (c : Cue) : bool := Qeq_bool (time c) q.

Definition by_time (a b : Cue) : Prop := (time a <= time b)%Q.

Definition nl : string := String "010" EmptyString.
Definition cr : jsstring := [13%N].

End LrcFormat.

(* ================================================================== *)
(** ** Notions the statements about the player use *)

Module PlayerFacts.
Import JsString JsNumber LRCParser Host LyricsPlayerApp Socket.


(** Cues at 0, 5 and 10 seconds. *)
Definition cues_0_5_10 : list Cue :=
  [ {| time := 0%Q; text := lit "A" |};
    {| time := 5%Q; text := lit "B" |};
    {| time := 10%Q; text := lit "C" |} ].

(** [t] clamped to the interval from [0] to [d]. *)
Definition clamp (d t : Q) : Q :=
  if Qle_bool t 0 then 0%Q else if Qle_bool d t then d else t.

Definition is_seek (e : Event) : bool :=
  match e with AudioSeek _ _ => true | _ => false end.

Definition is_renderLyrics (e : Event) : bool :=
  match e with RenderLyrics => true | _ => false end.

(** A session with audio loaded, playing or not. *)
Definition loaded (p : App) (a : Audio) : Prop := audio p = Some a.

(** What a peer compares after a state message: position, volume, the
    paused flag of the element, the playing flag, the interval handle. *)
Definition transport_view (g : Game)
  : option (option (Q * Q * bool) * bool * option nat) :=
  match lyricsPlayer g with
  | Some p =>
      Some (match audio p with
            | Some a => Some (currentTime a, volume a, paused a)
            | None => None
            end, isPlaying p, updateInterval p)
  | None => None
  end.

Definition song (n : string) : File :=
  {| name := lit n; type := lit "audio/mpeg"; content := [] |}.


(** The context of a method call whose element was just sought to [t]. *)
Definition sought (t : Q) (a : Audio) (c : Ctx) : Ctx :=
  {| this := set_audio (Some (with_currentTime t a)) (this c); env := env c |}.

(** A peer whose element stands at [t]. *)
Definition peer_at (t : Q) : Game :=
  {| lyricsPlayer := Some (set_audio (Some (with_currentTime t (newAudio 1))) constructor);
     genv := {| isGM := false; timerSeq := 0; urlSeq := 1 |} |}.

(** A player with the cues [cues] and the stored index [idx], its element
    at [t]. *)
Definition tracking (cues : list Cue) (t : Q) (idx : Z) : Ctx :=
  {| this := set_currentLyricIndex idx
               (set_lyrics cues
                  (set_audio (Some (with_currentTime t (newAudio 1))) constructor));
     env := {| isGM := false; timerSeq := 0; urlSeq := 1 |} |}.

(** A host playing local audio with three cues loaded. *)
Definition three_cues : jsstring :=
  lit ("[00:00.00]A" ++ LrcFormat.nl ++ "[00:05.00]B" ++ LrcFormat.nl ++ "[00:10.00]C").

(** The steps of an upload of [file] that nothing comes in between. *)
Definition audio_upload (file : File) : list Action :=
  [AudioUpload (Some file); Resume (AudioBytes file); Resume AudioLoaded].


Definition loaded_playing : Game :=
  run (OpenPlayer :: audio_upload (song "a.mp3") ++ [PlayPause]) (game0 true).

(** A peer that received lyrics, audio and a state message, and ticked. *)
Definition peer_at_100 : Game :=
  run [Receive (loadLrc three_cues (lit "a.lrc"));
       Receive (loadAudio [] (lit "a.mp3") (lit "audio/mpeg"));
       Receive (playerState true 100 1);
       Tick] (game0 false).




(** A host whose audio lasts 100 seconds. *)
Definition loaded_100s : Game :=
  run (OpenPlayer :: audio_upload (song "a.mp3") ++ [LoadedMetadata 100]) (game0 true).

End PlayerFacts.

(* ================================================================== *)
(** ** What the window shows: lyric lines, the clock, the saved settings *)

Module Display.
Import JsString LRCParser Host LyricsPlayerApp.








(** [String(n)] for an integer: its decimal digits, most significant
    first, after a minus sign when negative. *)
Fixpoint digits_from (fuel : nat) (n : Z) (acc : jsstring) : jsstring :=
  match fuel with
  | O => acc
  | S fuel' =>
      let acc' := (48 + Z.to_N (n mod 10))%N :: acc in
      if n <? 10 then acc' else digits_from fuel' (n / 10) acc'
  end.

Definition toString (n : Z) : jsstring :=
  if n <? 0 then code "-" :: digits_from (S (Z.to_nat (Z.log2 (- n)))) (- n) []
  else digits_from (S (Z.to_nat (Z.log2 n))) n [].

(** [s.padStart(n, c)] for a one-unit filler. *)
Definition padStart (n : nat) (c : N) (s : jsstring) : jsstring :=
  repeat c (n - length s) ++ s.

(** Rounding toward zero, and the remainder [a % b] it defines. *)
Definition truncate (q : Q) : Z := if Qle_bool 0 q then Qfloor q else Qceiling q.

Definition remainder (a b : Q) : Q := (a - b * inject_Z (truncate (a / b)))%Q.

Definition _formatTime (seconds : Q) : jsstring :=
  let minutes := Qfloor (seconds / 60) in
  let secs := Qfloor (remainder seconds 60) in
  toString minutes ++ lit ":" ++ padStart 2 (code "0") (toString secs).

(** The world setting [playerState]. *)
Record Settings := {
  s_volume : Q;
  s_audioFileName : option jsstring;
  s_lrcFileName : option jsstring
}.

(** The default registered at [init]. *)
Definition defaultSettings : Settings :=
  {| s_volume := (1 # 2)%Q; s_audioFileName := None; s_lrcFileName := None |}.

(** What [game.settings.set] stores when [_saveState] runs. *)
Definition stored (e : Event) : option Settings :=
  match e with
  | SaveState v a l => Some {| s_volume := v; s_audioFileName := a; s_lrcFileName := l |}
  | _ => None
  end.

(** A number in a condition: zero is false. *)
Definition truthy (q : Q) : bool := negb (Qeq_bool q 0).

Definition _initializeFromSavedState (settings : Settings) : M unit :=
  p <- get ;;
  match audio p with
  | Some _ =>
      if truthy (s_volume settings) then audio_set_volume (s_volume settings)
      else ret tt
  | None => ret tt
  end.

(** The fields [getData] adds for the template; [d_duration] is [None] for
    an element whose metadata is not there yet. *)
Record Data := {
  hasAudio : bool;
  d_isPlaying : bool;
  d_currentTime : Q;
  d_duration : option Q;
  d_volume : Q;
  audioFileName : jsstring;
  lrcFileName : jsstring
}.

Definition noFile : jsstring := lit "No file selected".

Definition getData (settings : Settings) (p : App) : Data :=
  {| hasAudio := match audio p with Some _ => true | None => false end;
     d_isPlaying := isPlaying p;
     d_currentTime := match audio p with Some a => currentTime a | None => 0%Q end;
     d_duration := match audio p with Some a => duration a | None => Some 0%Q end;
     d_volume := if truthy (s_volume settings) then s_volume settings else (1 # 2)%Q;
     audioFileName := match audioFile p with Some n => n | None => noFile end;
     lrcFileName := match lrcFile p with Some n => n | None => noFile end |}.

End Display.

(* ================================================================== *)
(** ** Notions the further statements use *)

Module MoreFacts.
Import JsString Regex LRCParser Host LyricsPlayerApp Socket Display.

(** [metadata[k]] *)
Fixpoint lookup (k : jsstring) (m : Metadata) : option jsstring :=
  match m with
  | [] => None
  | (k', v) :: m' => if eqb k k' then Some v else lookup k m'
  end.

(** What the loop body records for a line that is no timed line. *)
Definition meta_of_line (line : jsstring) : option (jsstring * jsstring) :=
  match search timeRe line with
  | Some _ => None
  | None =>
      match search metaRe line with
      | Some [k; v] => Some (k, v)
      | _ => None
      end
  end.

Definition record_meta (m : Metadata) (line : jsstring) : Metadata :=
  match meta_of_line line with
  | Some (k, v) => set_property k v m
  | None => m
  end.

(** The text of a metadata line. *)
Definition meta_line (key value : jsstring) : jsstring :=
  lit "[" ++ key ++ lit ":" ++ value ++ lit "]".

Definition started (t : Q) (c : Cue) : bool := Qle_bool (time c) t.

Definition is_emit (e : Event) : bool :=
  match e with Emit _ => true | _ => false end.

(** The messages a method sends. *)
Definition sent {A} (m : M A) (c : Ctx) : list Event := filter is_emit (issued m c).

(** The state message of a player, as [_broadcastState] builds it. *)
Definition state_message (p : App) : Message :=
  playerState (isPlaying p)
    (match audio p with Some a => currentTime a | None => 0%Q end)
    (match audio p with Some a => volume a | None => (1 # 2)%Q end).

(** The intervals set and not cleared, along a trace. *)
Definition timer_step (running : list nat) (e : Event) : list nat :=
  match e with
  | SetInterval h => h :: running
  | ClearInterval h => filter (fun h' => negb (Nat.eqb h' h)) running
  | _ => running
  end.

Definition running_after (trace : list Event) (running : list nat) : list nat :=
  fold_left timer_step trace running.

Definition stored_timer (g : Game) : list nat :=
  match lyricsPlayer g with
  | Some p => match updateInterval p with Some h => [h] | None => [] end
  | None => []
  end.

(** Everything issued along a run of the event loop. *)
Fixpoint run_trace (acts : list Action) (g : Game) : list Event :=
  match acts with
  | [] => []
  | a :: acts' => snd (step a g) ++ run_trace acts' (fst (step a g))
  end.

(** The player a message handler works on. *)
Definition player_of (g : Game) : App :=
  match lyricsPlayer g with Some p => p | None => constructor end.

(** The settings in force after a trace: the last ones stored. *)
Definition settings_after (trace : list Event) (s0 : Settings) : Settings :=
  fold_left (fun s e => match stored e with Some s' => s' | None => s end) trace s0.

(** While the element runs the player knows it: the flag is set and the
    interval is running.  Content is there only under the name of a
    file. *)
Definition consistent (g : Game) : Prop :=
  forall p, lyricsPlayer g = Some p ->
    (forall a, audio p = Some a -> paused a = false ->
               isPlaying p = true /\ updateInterval p <> None) /\
    (audioFile p = None -> audio p = None) /\
    (lrcFile p = None -> LyricsPlayerApp.lyrics p = []).


(** The two-place rendering of [k] is its tens and its units. *)
Definition two_digit_ok (k : nat) : bool :=
  JsString.eqb (padStart 2 (code "0") (toString (Z.of_nat k)))
               [(48 + N.of_nat (k / 10))%N; (48 + N.of_nat (k mod 10))%N].

End MoreFacts.

(* ================================================================== *)
(** * Properties *)

Import JsString JsNumber Regex LRCParser LrcFormat Host LyricsPlayerApp Socket PlayerFacts.
Import Display MoreFacts.

(** Run the methods on an explicit state: unfold the monad, the methods and
    the record accessors, nothing of the parser or of the arithmetic. *)
Ltac unfold_methods :=
  cbv [handleSocketMessage call dispatch on_player on_audio step tick
       bind ret get modify emit userIsGM freshTimer freshURL after issued
       on_this_audio audio_pause audio_play audio_set_currentTime
       audio_set_volume audio_paused
       _broadcastAudioLoad _broadcastLrcLoad _broadcastState _saveState render
       _stopUpdate _startUpdate _renderLyrics _updateLyrics _updateProgressBar
       _play _pause _onPlayPause _onVolumeChange _onSeek _loadAudioFile
       _onAudioUpload _loadLrcFile _onLrcUpload close on_loadedmetadata on_ended
       _onAudioUpload_to_await _loadAudioFile_from_await _onAudioUpload_from_await
       _onLrcUpload_to_await _onLrcUpload_from_await
       set_audio set_lyrics set_currentLyricIndex set_isPlaying set_updateInterval
       set_audioFile set_lrcFile with_currentTime with_duration with_volume
       with_paused with_onended newAudio
       this env audio LyricsPlayerApp.lyrics currentLyricIndex isPlaying
       updateInterval audioFile lrcFile
       src currentTime duration volume paused onended isGM timerSeq urlSeq
       lyricsPlayer genv loaded LyricsPlayerApp.constructor
       fst snd app negb andb orb filter is_seek is_renderLyrics transport_view].

(** The same with the notions of the further statements. *)
Ltac unfold_more :=
  cbv [sent is_emit state_message timer_step running_after stored_timer player_of
       _initializeFromSavedState getData stored settings_after fold_left
       s_volume s_audioFileName s_lrcFileName d_volume consistent];
  unfold_methods.



Ltac split_match :=
  match goal with
  | |- context [if ?b then _ else _] => destruct b eqn:?
  | |- context [match ?x with Some _ => _ | None => _ end] => destruct x eqn:?
  | |- context [match ?x with [] => _ | _ :: _ => _ end] => destruct x eqn:?
  end.

(** ** The matcher *)

Section MatcherFacts.

Lemma firstn_length_app (pre post : jsstring) :
  firstn (length pre) (pre ++ post) = pre.
Proof. induction pre as [|c pre IH]; simpl; [now destruct post | now rewrite IH]. Qed.

Lemma skipn_length_app (pre post : jsstring) :
  skipn (length pre) (pre ++ post) = post.
Proof. induction pre as [|c pre IH]; simpl; auto. Qed.

Lemma span_len_app (p : N -> bool) (pre post : jsstring) :
  forallb p pre = true ->
  span_len p (pre ++ post) = (length pre + span_len p post)%nat.
Proof.
  induction pre as [|c pre IH]; simpl; intros H; [reflexivity|].
  apply andb_prop in H as [Hc Hpre]. now rewrite Hc, IH.
Qed.

Lemma span_len_firstn (p : N -> bool) (s : jsstring) (n : nat) :
  (n <= span_len p s)%nat ->
  forallb p (firstn n s) = true /\ length (firstn n s) = n.
Proof.
  revert n; induction s as [|c s IH]; intros [|n]; simpl; intros H; auto; try lia.
  destruct (p c) eqn:Hc; [|lia].
  destruct (IH n) as [H1 H2]; [lia|]. simpl. now rewrite H1, H2.
Qed.

Lemma backtrack_eq {R} (k : jsstring -> option R) s lo n :
  backtrack k s lo n =
  if (n <? lo)%nat then None
  else match k (skipn n s) with
       | Some r => Some (n, r)
       | None => match n with O => None | S n' => backtrack k s lo n' end
       end.
Proof. destruct n; reflexivity. Qed.

Lemma backtrack_some {R} (k : jsstring -> option R) s lo n0 n r :
  backtrack k s lo n0 = Some (n, r) ->
  (lo <= n <= n0)%nat /\ k (skipn n s) = Some r.
Proof.
  induction n0 as [|n0 IH]; rewrite backtrack_eq.
  - destruct (0 <? lo)%nat eqn:E; [discriminate|].
    apply Nat.ltb_ge in E.
    destruct (k (skipn 0 s)) eqn:K; [|discriminate].
    intros [= <- <-]. split; [lia | exact K].
  - destruct (S n0 <? lo)%nat eqn:E; [discriminate|].
    apply Nat.ltb_ge in E.
    destruct (k (skipn (S n0) s)) eqn:K.
    + intros [= <- <-]. split; [lia | exact K].
    + intros H. apply IH in H as [H1 H2]. split; [lia | exact H2].
Qed.

(** A quantifier that can take exactly [lo] characters does not backtrack. *)
Lemma backtrack_exact {R} (k : jsstring -> option R) s n :
  backtrack k s n n =
  match k (skipn n s) with Some r => Some (n, r) | None => None end.
Proof.
  rewrite backtrack_eq, Nat.ltb_irrefl.
  destruct (k (skipn n s)); [reflexivity|].
  destruct n as [|n]; [reflexivity|].
  rewrite backtrack_eq.
  now replace (n <? S n)%nat with true by (symmetry; apply Nat.ltb_lt; lia).
Qed.

Lemma exec_cons_eq (a : atom) (re : list atom) (s : jsstring) :
  exec (a :: re) s =
  match backtrack (exec re) s (lo a) (greedy a s) with
  | Some (n, caps) => Some (if capt a then firstn n s :: caps else caps)
  | None => None
  end.
Proof. reflexivity. Qed.

Lemma exec_exact (a : atom) (re : list atom) (pre post : jsstring) :
  hi a = Some (lo a) ->
  length pre = lo a ->
  forallb (cls a) pre = true ->
  exec (a :: re) (pre ++ post) =
  match exec re post with
  | Some caps => Some (if capt a then pre :: caps else caps)
  | None => None
  end.
Proof.
  intros Hhi Hlen Hall. simpl. unfold greedy. rewrite Hhi.
  rewrite (span_len_app _ _ _ Hall), Hlen.
  replace (Nat.min (lo a) (lo a + span_len (cls a) post)) with (lo a) by lia.
  rewrite backtrack_exact, <- Hlen, skipn_length_app.
  destruct (exec re post); [|reflexivity].
  now rewrite firstn_length_app.
Qed.

Lemma exec_cons_inv (a : atom) (re : list atom) (s : jsstring) caps :
  exec (a :: re) s = Some caps ->
  exists pre post caps',
    s = pre ++ post /\
    (lo a <= length pre)%nat /\
    (forall h, hi a = Some h -> (length pre <= h)%nat) /\
    forallb (cls a) pre = true /\
    exec re post = Some caps' /\
    caps = (if capt a then pre :: caps' else caps').
Proof.
  simpl. destruct (backtrack (exec re) s (lo a) (greedy a s)) as [[n caps']|] eqn:B;
    [|discriminate].
  intros [= <-]. apply backtrack_some in B as [[Hlo Hgr] K].
  assert (Hspan : (n <= span_len (cls a) s)%nat).
  { unfold greedy in Hgr. destruct (hi a); lia. }
  destruct (span_len_firstn _ _ _ Hspan) as [Hall Hlen].
  exists (firstn n s), (skipn n s), caps'.
  rewrite firstn_skipn, Hlen. repeat split; auto.
  intros h Hh. unfold greedy in Hgr. rewrite Hh in Hgr. lia.
Qed.

(** A trailing starred group takes the whole run and never fails. *)
Lemma exec_last_star (p : N -> bool) (s : jsstring) :
  exec [group p 0 None] s = Some [firstn (span_len p s) s].
Proof.
  simpl. unfold greedy; simpl. rewrite backtrack_eq. reflexivity.
Qed.

Lemma search_eq (re : list atom) (s : jsstring) :
  search re s =
  match exec re s with
  | Some caps => Some caps
  | None => match s with [] => None | _ :: s' => search re s' end
  end.
Proof. destruct s; reflexivity. Qed.

(** [search] returns the match at the first position that has one. *)
Lemma search_leftmost (re : list atom) (pre s : jsstring) caps :
  exec re s = Some caps ->
  (forall i, (i < length pre)%nat -> exec re (skipn i (pre ++ s)) = None) ->
  search re (pre ++ s) = Some caps.
Proof.
  induction pre as [|c pre IH]; intros He Hnone.
  - simpl. rewrite search_eq, He. reflexivity.
  - assert (H0 := Hnone 0%nat ltac:(simpl; lia)). simpl in H0.
    rewrite search_eq. simpl. rewrite H0. apply IH; [exact He|].
    intros i Hi. apply (Hnone (S i)). simpl; lia.
Qed.

Lemma search_some (re : list atom) (s : jsstring) caps :
  search re s = Some caps ->
  exists pre s',
    s = pre ++ s' /\ exec re s' = Some caps /\
    forall i, (i < length pre)%nat -> exec re (skipn i s) = None.
Proof.
  induction s as [|c s IH]; rewrite search_eq.
  - destruct (exec re []) eqn:E; [|discriminate].
    intros [= <-]. exists [], []. repeat split; auto. simpl; lia.
  - destruct (exec re (c :: s)) eqn:E.
    + intros [= <-]. exists [], (c :: s). repeat split; auto. simpl; lia.
    + intros H. destruct (IH H) as (pre & s' & -> & He & Hn).
      exists (c :: pre), s'. repeat split; auto.
      intros [|i] Hi; [exact E|]. simpl. apply Hn. simpl in Hi; lia.
Qed.

Lemma search_none (re : list atom) (s : jsstring) :
  search re s = None ->
  forall i, (i <= length s)%nat -> exec re (skipn i s) = None.
Proof.
  induction s as [|c s IH]; rewrite search_eq.
  - destruct (exec re []) eqn:E; [discriminate|].
    intros _ [|i] Hi; simpl; auto.
  - destruct (exec re (c :: s)) eqn:E; [discriminate|].
    intros H [|i] Hi; [exact E|]. simpl. apply IH; auto. simpl in Hi; lia.
Qed.

End MatcherFacts.

(** ** The timed-line pattern *)

Section TimedLine.

Lemma chr_run (a : ascii) (pre : jsstring) :
  (1 <= length pre)%nat -> (length pre <= 1)%nat ->
  forallb (cls (chr a)) pre = true -> pre = [code a].
Proof.
  destruct pre as [|c [|c' pre]]; simpl; intros H1 H2 H; try lia.
  rewrite andb_true_r in H. apply N.eqb_eq in H. now subst.
Qed.

Lemma exec_chr_hit (a : ascii) (re : list atom) (post : jsstring) :
  exec (chr a :: re) (code a :: post) = exec re post.
Proof.
  change (code a :: post) with ([code a] ++ post).
  rewrite exec_exact; try reflexivity.
  - now destruct (exec re post).
  - simpl. now rewrite N.eqb_refl.
Qed.

Lemma exec_chr_miss (a : ascii) (re : list atom) (c : N) (post : jsstring) :
  c <> code a -> exec (chr a :: re) (c :: post) = None.
Proof.
  intros Hc. destruct (exec (chr a :: re) (c :: post)) eqn:E; [|reflexivity].
  apply exec_cons_inv in E as (pre & post' & caps' & Hs & Hlo & Hhi & Hall & _).
  assert (pre = [code a]) as -> by (apply chr_run; auto).
  simpl in Hs. congruence.
Qed.

Lemma digits_2 (d : jsstring) :
  digits 2 d ->
  exists a b, d = [a; b] /\ is_digit a = true /\ is_digit b = true.
Proof.
  intros [Hl Hd]. destruct d as [|a [|b [|c d]]]; try discriminate.
  simpl in Hd. rewrite andb_true_r in Hd. apply andb_prop in Hd as [Ha Hb].
  now exists a, b.
Qed.

Lemma digits_3 (d : jsstring) :
  digits 3 d ->
  exists a b c,
    d = [a; b; c] /\ is_digit a = true /\ is_digit b = true /\ is_digit c = true.
Proof.
  intros [Hl Hd]. destruct d as [|a [|b [|c [|e d]]]]; try discriminate.
  simpl in Hd. rewrite andb_true_r in Hd.
  apply andb_prop in Hd as [Ha Hd]. apply andb_prop in Hd as [Hb Hc].
  now exists a, b, c.
Qed.

Lemma digit_not_bracket (c : N) : is_digit c = true -> c <> code "]".
Proof. intros H ->. discriminate H. Qed.

(** The fraction [(\d{2,3})] before the closing bracket: three digits when
    there are three, two otherwise; giving one back never helps. *)
Lemma exec_fraction (re : list atom) (ff post : jsstring) :
  digits 2 ff \/ digits 3 ff ->
  exec (group is_digit 2 (Some 3%nat) :: chr "]" :: re) (ff ++ lit "]" ++ post) =
  match exec re post with
  | Some caps => Some (ff :: caps)
  | None => None
  end.
Proof.
  intros [H|H].
  - apply digits_2 in H as (a & b & -> & Ha & Hb).
    rewrite exec_cons_eq. unfold greedy. cbn [hi cls lo group capt].
    assert (Hs : span_len is_digit ([a; b] ++ lit "]" ++ post) = 2%nat).
    { simpl. now rewrite Ha, Hb. }
    rewrite Hs. change (Nat.min 3 2) with 2%nat.
    rewrite backtrack_exact.
    change (skipn 2 ([a; b] ++ lit "]" ++ post)) with (code "]" :: post).
    rewrite exec_chr_hit. now destruct (exec re post).
  - apply digits_3 in H as (a & b & c & -> & Ha & Hb & Hc).
    rewrite exec_cons_eq. unfold greedy. cbn [hi cls lo group capt].
    assert (Hs : span_len is_digit ([a; b; c] ++ lit "]" ++ post) = 3%nat).
    { simpl. now rewrite Ha, Hb, Hc. }
    rewrite Hs. change (Nat.min 3 3) with 3%nat.
    rewrite backtrack_eq. change (3 <? 2)%nat with false. cbv iota.
    change (skipn 3 ([a; b; c] ++ lit "]" ++ post)) with (code "]" :: post).
    rewrite exec_chr_hit. destruct (exec re post); [reflexivity|].
    rewrite backtrack_exact.
    change (skipn 2 ([a; b; c] ++ lit "]" ++ post)) with (c :: code "]" :: post).
    rewrite exec_chr_miss by now apply digit_not_bracket.
    reflexivity.
Qed.

Lemma before_terminator_span (s : jsstring) :
  firstn (span_len is_dot s) s = before_terminator s.
Proof.
  induction s as [|c s IH]; simpl; [reflexivity|].
  destruct (is_dot c) eqn:E; unfold is_dot in E;
    destruct (is_line_terminator c); try discriminate; simpl; [|reflexivity].
  now rewrite IH.
Qed.

Lemma exec_digits2 (re : list atom) (d post : jsstring) :
  digits 2 d ->
  exec (group is_digit 2 (Some 2%nat) :: re) (d ++ post) =
  match exec re post with
  | Some caps => Some (d :: caps)
  | None => None
  end.
Proof. intros [Hl Hd]. now rewrite exec_exact. Qed.

(** At a position where a time tag starts, the pattern matches and
    captures the three digit groups and the rest of the line up to the
    first line terminator. *)
Lemma exec_timeRe_tag (mm ss ff post : jsstring) :
  is_time_tag mm ss ff ->
  exec timeRe (time_tag mm ss ff ++ post) =
  Some [mm; ss; ff; before_terminator post].
Proof.
  intros (Hm & Hs & Hf). unfold time_tag, timeRe.
  repeat rewrite <- app_assoc.
  change (lit "[" ++ ?x) with (code "[" :: x). rewrite exec_chr_hit.
  rewrite (exec_digits2 _ _ _ Hm).
  change (lit ":" ++ ?x) with (code ":" :: x). rewrite exec_chr_hit.
  rewrite (exec_digits2 _ _ _ Hs).
  change (lit "." ++ ?x) with (code "." :: x). rewrite exec_chr_hit.
  rewrite (exec_fraction _ _ _ Hf).
  now rewrite exec_last_star, before_terminator_span.
Qed.

(** And it matches nowhere else. *)
Lemma exec_timeRe_inv (s : jsstring) caps :
  exec timeRe s = Some caps ->
  exists mm ss ff post,
    is_time_tag mm ss ff /\ s = time_tag mm ss ff ++ post /\
    caps = [mm; ss; ff; before_terminator post].
Proof.
  unfold timeRe. intros H.
  apply exec_cons_inv in H as (p1 & r1 & c1 & -> & L1 & U1 & A1 & H & ->).
  apply exec_cons_inv in H as (mm & r2 & c2 & -> & L2 & U2 & A2 & H & ->).
  apply exec_cons_inv in H as (p3 & r3 & c3 & -> & L3 & U3 & A3 & H & ->).
  apply exec_cons_inv in H as (ss & r4 & c4 & -> & L4 & U4 & A4 & H & ->).
  apply exec_cons_inv in H as (p5 & r5 & c5 & -> & L5 & U5 & A5 & H & ->).
  apply exec_cons_inv in H as (ff & r6 & c6 & -> & L6 & U6 & A6 & H & ->).
  apply exec_cons_inv in H as (p7 & post & c7 & -> & L7 & U7 & A7 & H & ->).
  rewrite exec_last_star, before_terminator_span in H. injection H as <-.
  cbn [lo hi cls capt chr group] in *.
  specialize (U1 _ eq_refl). specialize (U2 _ eq_refl). specialize (U3 _ eq_refl).
  specialize (U4 _ eq_refl). specialize (U5 _ eq_refl). specialize (U6 _ eq_refl).
  specialize (U7 _ eq_refl).
  assert (p1 = [code "["]) as -> by (apply chr_run; auto).
  assert (p3 = [code ":"]) as -> by (apply chr_run; auto).
  assert (p5 = [code "."]) as -> by (apply chr_run; auto).
  assert (p7 = [code "]"]) as -> by (apply chr_run; auto).
  exists mm, ss, ff, post. split; [|split; [|reflexivity]].
  - repeat split; auto; try lia.
    destruct (Nat.eq_dec (length ff) 2); [left | right]; split; auto; lia.
  - unfold time_tag. now repeat rewrite <- app_assoc.
Qed.

End TimedLine.

(** ** What one line contributes *)

Section Lines.

Lemma parseInt_from_digits (d : jsstring) (acc : Z) :
  forallb is_digit d = true ->
  parseInt_from acc d = fold_left (fun acc c => 10 * acc + digit_value c) d acc.
Proof.
  revert acc; induction d as [|c d IH]; simpl; intros acc H; [reflexivity|].
  apply andb_prop in H as [Hc Hd]. rewrite Hc. now apply IH.
Qed.

Lemma parseInt_decimal (n : nat) (d : jsstring) :
  digits n d -> parseInt d = decimal d.
Proof. intros [_ H]. now apply parseInt_from_digits. Qed.

(** Padding the fraction to three digits, then reading it, gives its
    milliseconds. *)
Lemma parseInt_padEnd_millis (ff : jsstring) :
  digits 2 ff \/ digits 3 ff ->
  parseInt (padEnd 3 (code "0") ff) = millis ff.
Proof.
  intros [H|H].
  - apply digits_2 in H as (a & b & -> & Ha & Hb).
    change (padEnd 3 (code "0") [a; b]) with [a; b; 48%N].
    unfold parseInt. rewrite parseInt_from_digits by (simpl; now rewrite Ha, Hb).
    unfold millis, decimal. cbn [fold_left length].
    change (digit_value 48) with 0. change (10 ^ (3 - Z.of_nat 2)) with 10.
    generalize (digit_value a) (digit_value b). intros; lia.
  - apply digits_3 in H as (a & b & c & -> & Ha & Hb & Hc).
    change (padEnd 3 (code "0") [a; b; c]) with [a; b; c].
    unfold parseInt. rewrite parseInt_from_digits by (simpl; now rewrite Ha, Hb, Hc).
    unfold millis, decimal. cbn [fold_left length].
    change (10 ^ (3 - Z.of_nat 3)) with 1.
    generalize (digit_value a) (digit_value b) (digit_value c). intros; lia.
Qed.

Lemma length_tag_prefix (pre rest : jsstring) (i : nat) :
  (i < length pre)%nat -> length (firstn i (pre ++ rest)) = i.
Proof. intros H. rewrite length_firstn, length_app. lia. Qed.

(** The unanchored search stops at the leftmost tag. *)
Lemma search_timeRe_leftmost (line pre mm ss ff post : jsstring) :
  leftmost_tag line pre mm ss ff post ->
  search timeRe line = Some [mm; ss; ff; before_terminator post].
Proof.
  intros [[Htag ->] Hleft].
  apply search_leftmost; [now apply exec_timeRe_tag|].
  intros i Hi.
  destruct (exec timeRe (skipn i (pre ++ time_tag mm ss ff ++ post))) eqn:E;
    [exfalso | reflexivity].
  apply exec_timeRe_inv in E as (mm' & ss' & ff' & post' & Htag' & Hs & _).
  assert (Hat : tag_at (pre ++ time_tag mm ss ff ++ post)
                  (firstn i (pre ++ time_tag mm ss ff ++ post)) mm' ss' ff' post').
  { split; [exact Htag'|]. rewrite <- Hs. now rewrite firstn_skipn. }
  apply Hleft in Hat. rewrite length_tag_prefix in Hat by exact Hi. lia.
Qed.

(** A line that holds a tag holds a leftmost one. *)
Lemma tag_at_leftmost (line pre mm ss ff post : jsstring) :
  tag_at line pre mm ss ff post ->
  exists pre0 mm0 ss0 ff0 post0, leftmost_tag line pre0 mm0 ss0 ff0 post0.
Proof.
  intros [Htag Hline].
  destruct (search timeRe line) as [caps|] eqn:S.
  - apply search_some in S as (pre0 & s' & Hs & He & Hnone).
    apply exec_timeRe_inv in He as (mm0 & ss0 & ff0 & post0 & Htag0 & -> & _).
    exists pre0, mm0, ss0, ff0, post0. split; [now split|].
    intros pre' mm' ss' ff' post' [Htag' Hline'].
    destruct (Nat.le_gt_cases (length pre0) (length pre')) as [|Hlt]; [assumption|].
    specialize (Hnone _ Hlt). rewrite Hline', skipn_length_app in Hnone.
    rewrite exec_timeRe_tag in Hnone by assumption. discriminate.
  - exfalso. apply search_none with (i := length pre) in S.
    + rewrite Hline, skipn_length_app, exec_timeRe_tag in S by assumption.
      discriminate.
    + rewrite Hline, length_app. lia.
Qed.

(** The loop body on a line whose leftmost tag is known. *)
Lemma parse_line_timed (acc : list Cue * Metadata) (line pre mm ss ff post : jsstring) :
  leftmost_tag line pre mm ss ff post ->
  parse_line acc line =
  (fst acc ++ [{| time := timeInSeconds (decimal mm) (decimal ss) (millis ff);
                  text := trim (before_terminator post) |}],
   snd acc).
Proof.
  intros H. destruct acc as [ly md]. unfold parse_line.
  rewrite (search_timeRe_leftmost _ _ _ _ _ _ H).
  destruct H as [[(Hm & Hs & Hf) _] _].
  rewrite (parseInt_decimal _ _ Hm), (parseInt_decimal _ _ Hs).
  now rewrite (parseInt_padEnd_millis _ Hf).
Qed.

Lemma parse_line_fst (ly : list Cue) (md : Metadata) (line : jsstring) :
  fst (parse_line (ly, md) line) = ly ++ cues_of_line line.
Proof.
  unfold cues_of_line, parse_line.
  destruct (search timeRe line) as [[|g1 [|g2 [|g3 [|g4 [|g5 caps]]]]]|];
    cbn [fst]; rewrite ?app_nil_r; try reflexivity.
  destruct (search metaRe line) as [[|k [|v [|x caps]]]|];
    cbn [fst]; rewrite ?app_nil_r; reflexivity.
Qed.

Lemma fold_parse_line_fst (lines : list jsstring) (acc : list Cue * Metadata) :
  fst (fold_left parse_line lines acc) = fst acc ++ flat_map cues_of_line lines.
Proof.
  revert acc; induction lines as [|line lines IH]; intros [ly md];
    cbn [fold_left flat_map fst].
  - now rewrite app_nil_r.
  - rewrite IH, parse_line_fst. now rewrite <- app_assoc.
Qed.

(** [parse] sorts the cues of the lines. *)
Lemma parse_lyrics (lrcContent : jsstring) :
  LRCParser.lyrics (parse lrcContent) =
  JsArray.sort compareTime (cues_in_file_order lrcContent).
Proof.
  unfold parse, cues_in_file_order.
  assert (H := fold_parse_line_fst (split (code "010") lrcContent) ([], [])).
  destruct (fold_left parse_line (split (code "010") lrcContent) ([], []))
    as [ly md]. cbn [fst] in H. simpl in H. now rewrite H.
Qed.

End Lines.

(** ** The sort *)

Section SortFacts.

Lemma Qltb_lt (a b : Q) : JsArray.Qltb a b = true <-> (a < b)%Q.
Proof.
  unfold JsArray.Qltb. rewrite negb_true_iff.
  split; intros H.
  - apply Qnot_le_lt. intros Hle. apply Qle_bool_iff in Hle. congruence.
  - destruct (Qle_bool b a) eqn:E; [|reflexivity].
    apply Qle_bool_iff in E. exfalso. now apply (Qlt_not_le a b).
Qed.

(** The comparator says [x] goes after [y] exactly when [y] is strictly
    earlier. *)
Lemma compareTime_after (x y : Cue) :
  JsArray.Qltb 0 (compareTime x y) = true <-> (time y < time x)%Q.
Proof.
  rewrite Qltb_lt. unfold compareTime. unfold Qminus.
  symmetry. apply Qlt_minus_iff.
Qed.

Lemma insert_HdRel (x y : Cue) (l : list Cue) :
  by_time y x -> HdRel by_time y l -> HdRel by_time y (JsArray.insert compareTime x l).
Proof.
  intros Hyx Hl. destruct l as [|z l]; simpl; [now constructor|].
  destruct (JsArray.Qltb 0 (compareTime x z)); constructor; auto.
  now inversion Hl.
Qed.

Lemma insert_sorted (x : Cue) (l : list Cue) :
  Sorted by_time l -> Sorted by_time (JsArray.insert compareTime x l).
Proof.
  induction 1 as [|y l Hs IH Hhd]; simpl; [repeat constructor|].
  destruct (JsArray.Qltb 0 (compareTime x y)) eqn:E.
  - apply compareTime_after in E. constructor; [exact IH|].
    apply insert_HdRel; [|exact Hhd]. now apply Qlt_le_weak.
  - constructor; [now constructor|]. constructor. unfold by_time.
    apply Qnot_lt_le. intros Hlt. apply compareTime_after in Hlt. congruence.
Qed.

Lemma sort_sorted (l : list Cue) : Sorted by_time (JsArray.sort compareTime l).
Proof. induction l; simpl; [constructor | now apply insert_sorted]. Qed.

Lemma insert_perm (x : Cue) (l : list Cue) :
  Permutation (x :: l) (JsArray.insert compareTime x l).
Proof.
  induction l as [|y l IH]; simpl; [reflexivity|].
  destruct (JsArray.Qltb 0 (compareTime x y)); [|reflexivity].
  rewrite perm_swap. now constructor.
Qed.

Lemma sort_perm (l : list Cue) : Permutation l (JsArray.sort compareTime l).
Proof.
  induction l as [|x l IH]; simpl; [reflexivity|].
  rewrite <- insert_perm. now constructor.
Qed.

(** [insert] moves [x] only past cues of another time. *)
Lemma insert_filter (q : Q) (x : Cue) (l : list Cue) :
  filter (at_time q) (JsArray.insert compareTime x l) =
  filter (at_time q) (x :: l).
Proof.
  induction l as [|y l IH]; [reflexivity|].
  cbn [JsArray.insert]. destruct (JsArray.Qltb 0 (compareTime x y)) eqn:E;
    [|reflexivity].
  apply compareTime_after in E.
  cbn [filter] in *. rewrite IH.
  destruct (at_time q x) eqn:Hx; [|reflexivity].
  destruct (at_time q y) eqn:Hy; [|reflexivity].
  exfalso. unfold at_time in *.
  apply Qeq_bool_iff in Hx, Hy. rewrite Hx, Hy in E.
  now apply (Qlt_irrefl q).
Qed.


Lemma sort_stable (q : Q) (l : list Cue) :
  filter (at_time q) (JsArray.sort compareTime l) = filter (at_time q) l.
Proof.
  induction l as [|x l IH]; [reflexivity|].
  cbn [JsArray.sort]. rewrite insert_filter. cbn [filter]. now rewrite IH.
Qed.

End SortFacts.

(** ** Rounding *)

Section Rounding.

Lemma round64_zero (q : Q) : (q == 0)%Q -> round64 q = 0%Q.
Proof. intros H. unfold round64. apply Qeq_bool_iff in H. now rewrite H. Qed.

(** A number minus itself is zero, in doubles as well. *)
Lemma sub64_self (q : Q) : sub64 q q = 0%Q.
Proof. apply round64_zero. unfold Qminus. apply Qplus_opp_r. Qed.

Lemma pow2_pos (e : Z) : (0 < pow2 e)%Q.
Proof. apply Qpower_0_lt. reflexivity. Qed.

Lemma pow2_le (a b : Z) : a <= b -> (pow2 a <= pow2 b)%Q.
Proof. intros H. apply Qpower_le_compat_l; [exact H | discriminate]. Qed.

Lemma pow2_Z (n : Z) : 0 <= n -> (pow2 n == inject_Z (2 ^ n))%Q.
Proof. intros H. unfold pow2. now rewrite Zpower_Qpower. Qed.

Lemma pow2_plus (a b : Z) : (pow2 (a + b) == pow2 a * pow2 b)%Q.
Proof. unfold pow2. apply Qpower_plus. discriminate. Qed.

Lemma nearest_even_close (x : Q) : (Qabs (inject_Z (nearest_even x) - x) <= 1 # 2)%Q.
Proof.
  unfold nearest_even.
  assert (Hlo := Qfloor_le x). assert (Hhi := Qlt_floor x).
  rewrite inject_Z_plus in Hhi. change (inject_Z 1) with 1%Q in Hhi.
  apply Qabs_Qle_condition.
  destruct (x - inject_Z (Qfloor x) ?= 1 # 2)%Q eqn:E.
  - apply Qeq_alt in E.
    destruct (Z.even (Qfloor x)); [|rewrite inject_Z_plus; change (inject_Z 1) with 1%Q]; lra.
  - apply Qlt_alt in E. lra.
  - apply Qgt_alt in E. rewrite inject_Z_plus. change (inject_Z 1) with 1%Q. lra.
Qed.

Lemma nearest_even_nonneg (x : Q) : (0 <= x)%Q -> 0 <= nearest_even x.
Proof.
  intros H. unfold nearest_even.
  assert (Hf : 0 <= Qfloor x).
  { change 0 with (Qfloor 0). now apply Qfloor_resp_le. }
  destruct (x - inject_Z (Qfloor x) ?= 1 # 2)%Q; [destruct (Z.even (Qfloor x))| |]; lia.
Qed.

(** Rounding moves a number by at most half a unit of its last place. *)
Lemma round64_close (q : Q) :
  (Qabs (round64 q - q) <= (1 # 2) * pow2 (quantum q))%Q.
Proof.
  assert (Hp := pow2_pos (quantum q)).
  unfold round64. destruct (Qeq_bool q 0) eqn:E.
  - apply Qeq_bool_iff in E. apply Qabs_Qle_condition. lra.
  - rewrite Qred_correct.
    set (p := pow2 (quantum q)) in *.
    assert (Hq : (inject_Z (nearest_even (q / p)) * p - q ==
                  (inject_Z (nearest_even (q / p)) - q / p) * p)%Q).
    { field. lra. }
    rewrite Hq, Qabs_Qmult, (Qabs_pos p) by lra.
    apply Qmult_le_compat_r; [apply nearest_even_close | lra].
Qed.

Lemma round64_nonneg (q : Q) : (0 <= q)%Q -> (0 <= round64 q)%Q.
Proof.
  intros H. assert (Hp := pow2_pos (quantum q)).
  unfold round64. destruct (Qeq_bool q 0); [lra|].
  rewrite Qred_correct. apply Qmult_le_0_compat; [|lra].
  change 0%Q with (inject_Z 0). rewrite <- Zle_Qle. apply nearest_even_nonneg.
  apply Qle_shift_div_l; lra.
Qed.

Lemma log2_below (n : Z) : 0 < n -> (pow2 (Z.log2 n) <= inject_Z n)%Q.
Proof.
  intros H. rewrite pow2_Z by apply Z.log2_nonneg.
  rewrite <- Zle_Qle. now apply Z.log2_spec.
Qed.

Lemma log2_above (n : Z) : 0 < n -> (inject_Z n < pow2 (Z.log2 n + 1))%Q.
Proof.
  intros H. assert (H0 := Z.log2_nonneg n). rewrite pow2_Z by lia.
  rewrite <- Zlt_Qlt. replace (Z.log2 n + 1) with (Z.succ (Z.log2 n)) by lia.
  now apply Z.log2_spec.
Qed.

Lemma ilog2_le (q : Q) (k : Z) : (0 < q)%Q -> (q < pow2 (k + 1))%Q -> ilog2 q <= k.
Proof.
  intros H0 H. unfold ilog2.
  set (L := Z.log2 (Qnum q)). set (D := Z.log2 (Z.pos (Qden q))).
  destruct (Qle_bool (pow2 (L - D)) q) eqn:E.
  - apply Qle_bool_iff in E.
    destruct (Z_le_gt_dec (L - D) k) as [Hk|Hk]; [exact Hk|].
    exfalso. assert (Hk' := pow2_le (k + 1) (L - D) ltac:(lia)). lra.
  - destruct (Z_le_gt_dec (L - D - 1) k) as [Hk|Hk]; [exact Hk|].
    exfalso.
    assert (Hn : 0 < Qnum q) by (destruct q as [n d]; unfold Qlt in H0; cbn in *; lia).
    assert (Hq : (q * inject_Z (Z.pos (Qden q)) == inject_Z (Qnum q))%Q).
    { destruct q as [n d]. unfold Qeq, Qmult, inject_Z. cbn [Qnum Qden]. lia. }
    assert (H1 := log2_below _ Hn). fold L in H1.
    assert (H2 := log2_above (Z.pos (Qden q)) ltac:(lia)). fold D in H2.
    assert (H3 := pow2_le (k + 1) (L - D - 1) ltac:(lia)).
    assert (H4 := pow2_plus (L - D - 1) (D + 1)).
    replace (L - D - 1 + (D + 1)) with L in H4 by lia.
    assert (H5 := pow2_pos (D + 1)).
    assert (H6 : (q * inject_Z (Z.pos (Qden q)) <= q * pow2 (D + 1))%Q).
    { rewrite !(Qmult_comm q). apply Qmult_le_compat_r; lra. }
    assert (H7 : (q * pow2 (D + 1) < pow2 (L - D - 1) * pow2 (D + 1))%Q).
    { apply Qmult_lt_compat_r; lra. }
    lra.
Qed.

Lemma quantum_le (q : Q) (k : Z) :
  ~ (q == 0)%Q -> (Qabs q < pow2 (k + 1))%Q -> -1074 <= k - 52 -> quantum q <= k - 52.
Proof.
  intros Hq H Hk. unfold quantum.
  assert (H0 : (0 < Qabs q)%Q).
  { assert (Hn := Qabs_nonneg q). apply Qle_lteq in Hn as [Hn|Hn]; [exact Hn|].
    exfalso. apply Hq. revert Hn. apply Qabs_case; intros; lra. }
  assert (Hi := ilog2_le _ _ H0 H). lia.
Qed.

(** Below [2 ^ (k + 1)] rounding moves a number by at most [2 ^ (k - 53)]. *)
Lemma round64_near (q : Q) (k : Z) :
  (Qabs q < pow2 (k + 1))%Q -> -1022 <= k ->
  (Qabs (round64 q - q) <= pow2 (k - 53))%Q.
Proof.
  intros H Hk. destruct (Qeq_dec q 0) as [E|E].
  - rewrite (round64_zero _ E). assert (Hp := pow2_pos (k - 53)).
    apply Qabs_Qle_condition. lra.
  - eapply Qle_trans; [apply round64_close|].
    assert (Hq := quantum_le q k E H ltac:(lia)).
    assert (H1 := pow2_le (quantum q) (k - 52) Hq).
    assert (H2 := pow2_plus (k - 53) 1). replace (k - 53 + 1) with (k - 52) in H2 by lia.
    change (pow2 1) with 2%Q in H2. lra.
Qed.








End Rounding.

(** ** The time of a cue *)

Section CueTime.

Lemma whole_seconds_table :
  forallb (fun m =>
    forallb (fun s =>
      Qeq_bool (add64 (mul64 (inject_Z (Z.of_nat m)) 60) (inject_Z (Z.of_nat s)))
               (inject_Z (Z.of_nat m * 60 + Z.of_nat s)))
      (seq 0 100)) (seq 0 100) = true.
Proof. vm_compute. reflexivity. Qed.

(** Minutes and seconds of two digits: the product and the first sum are
    whole numbers, and exact. *)
Lemma whole_seconds (m s : Z) :
  0 <= m <= 99 -> 0 <= s <= 99 ->
  (add64 (mul64 (inject_Z m) 60) (inject_Z s) == inject_Z (m * 60 + s))%Q.
Proof.
  intros Hm Hs. assert (H := whole_seconds_table).
  rewrite forallb_forall in H.
  assert (H1 := H (Z.to_nat m) ltac:(apply in_seq; lia)).
  rewrite forallb_forall in H1.
  assert (H2 := H1 (Z.to_nat s) ltac:(apply in_seq; lia)).
  rewrite !Z2Nat.id in H2 by lia. now apply Qeq_bool_iff.
Qed.

(** The quotient is rounded by at most [2 ^ -54] and the last sum by at
    most [2 ^ -41]. *)
Lemma timeInSeconds_near (m s ms : Z) :
  0 <= m <= 99 -> 0 <= s <= 99 -> 0 <= ms <= 999 ->
  (0 <= timeInSeconds m s ms)%Q /\
  (Qabs (timeInSeconds m s ms -
         (inject_Z m * 60 + inject_Z s + inject_Z ms / 1000)) <= 1 # 2 ^ 40)%Q.
Proof.
  intros Hm Hs Hms. unfold timeInSeconds.
  assert (HA := whole_seconds m s Hm Hs).
  set (A := add64 (mul64 (inject_Z m) 60) (inject_Z s)) in *.
  assert (HN : (0 <= inject_Z (m * 60 + s) <= 6039)%Q).
  { split; [change 0%Q with (inject_Z 0) | change 6039%Q with (inject_Z 6039)];
      rewrite <- Zle_Qle; lia. }
  assert (Hx : (0 <= inject_Z ms / 1000 <= 999 # 1000)%Q).
  { assert (E : (inject_Z ms / 1000 == ms # 1000)%Q)
      by (rewrite (Qmake_Qdiv ms 1000); reflexivity).
    rewrite E. unfold Qle. cbn [Qnum Qden]. lia. }
  unfold div64.
  set (x := (inject_Z ms / 1000)%Q) in *.
  assert (HF : (Qabs (round64 x - x) <= pow2 (-1 - 53))%Q).
  { apply round64_near; [|lia]. rewrite Qabs_pos by lra. change (pow2 (-1 + 1)) with 1%Q. lra. }
  assert (HF0 := round64_nonneg x ltac:(lra)).
  set (F := round64 x) in *.
  apply Qabs_Qle_condition in HF. change (pow2 (-1 - 53)) with (1 # 18014398509481984)%Q in HF.
  unfold add64.
  assert (HT : (Qabs (round64 (A + F) - (A + F)) <= pow2 (12 - 53))%Q).
  { apply round64_near; [|lia]. rewrite Qabs_pos by lra.
    change (pow2 (12 + 1)) with 8192%Q. lra. }
  apply Qabs_Qle_condition in HT. change (pow2 (12 - 53)) with (1 # 2199023255552)%Q in HT.
  split; [apply round64_nonneg; lra|].
  change (1 # 2 ^ 40)%Q with (1 # 1099511627776)%Q.
  apply Qabs_Qle_condition.
  rewrite inject_Z_plus, inject_Z_mult in HA. change (inject_Z 60) with 60%Q in HA.
  lra.
Qed.

End CueTime.

(** ** The parser: time arithmetic, order, unanchored matching *)

Section ParserClaims.

Lemma millis_2 (ff : jsstring) : digits 2 ff -> millis ff = 10 * decimal ff.
Proof. intros [Hl _]. unfold millis. rewrite Hl. change (10 ^ (3 - Z.of_nat 2)) with 10. lia. Qed.

Lemma millis_3 (ff : jsstring) : digits 3 ff -> millis ff = decimal ff.
Proof. intros [Hl _]. unfold millis. rewrite Hl. change (10 ^ (3 - Z.of_nat 3)) with 1. lia. Qed.

Lemma digit_value_range (c : N) : is_digit c = true -> 0 <= digit_value c <= 9.
Proof.
  unfold is_digit, digit_value. intros H. apply andb_prop in H as [H1 H2].
  apply N.leb_le in H1, H2. lia.
Qed.

Lemma decimal_2_range (d : jsstring) : digits 2 d -> 0 <= decimal d <= 99.
Proof.
  intros H. apply digits_2 in H as (a & b & -> & Ha & Hb).
  apply digit_value_range in Ha, Hb. unfold decimal. cbn [fold_left]. lia.
Qed.

Lemma decimal_3_range (d : jsstring) : digits 3 d -> 0 <= decimal d <= 999.
Proof.
  intros H. apply digits_3 in H as (a & b & c & -> & Ha & Hb & Hc).
  apply digit_value_range in Ha, Hb, Hc. unfold decimal. cbn [fold_left]. lia.
Qed.

Lemma millis_range (ff : jsstring) : digits 2 ff \/ digits 3 ff -> 0 <= millis ff <= 999.
Proof.
  intros [H|H].
  - rewrite (millis_2 _ H). apply decimal_2_range in H. lia.
  - rewrite (millis_3 _ H). apply decimal_3_range in H. lia.
Qed.

(** The time of a tag, against the exact value of its digits. *)
Lemma tag_time_near (mm ss ff : jsstring) :
  is_time_tag mm ss ff ->
  (0 <= timeInSeconds (decimal mm) (decimal ss) (millis ff))%Q /\
  (Qabs (timeInSeconds (decimal mm) (decimal ss) (millis ff) -
         (inject_Z (decimal mm) * 60 + inject_Z (decimal ss) + inject_Z (millis ff) / 1000))
   <= 1 # 2 ^ 40)%Q.
Proof.
  intros (Hm & Hs & Hf).
  apply timeInSeconds_near;
    [now apply decimal_2_range | now apply decimal_2_range | now apply millis_range].
Qed.

Lemma cues_of_line_timed (line pre mm ss ff post : jsstring) :
  leftmost_tag line pre mm ss ff post ->
  cues_of_line line =
  [{| time := timeInSeconds (decimal mm) (decimal ss) (millis ff);
      text := trim (before_terminator post) |}].
Proof.
  intros H. unfold cues_of_line. now rewrite (parse_line_timed _ _ _ _ _ _ _ H).
Qed.

Lemma before_terminator_all (s : jsstring) :
  forallb is_dot s = true -> before_terminator s = s.
Proof.
  induction s as [|c s IH]; simpl; [reflexivity|].
  intros H. apply andb_prop in H as [Hc Hs]. unfold is_dot in Hc.
  destruct (is_line_terminator c); [discriminate|]. now rewrite IH.
Qed.

Lemma Sorted_adjacent (l pre post : list Cue) (a b : Cue) :
  Sorted by_time l -> l = pre ++ a :: b :: post -> by_time a b.
Proof.
  intros Hs ->. induction pre as [|c pre IH]; simpl in Hs.
  - inversion Hs as [|? ? _ Hhd]; subst. now inversion Hhd.
  - apply IH. now inversion Hs.
Qed.

Lemma first_position_is_leftmost (mm ss ff post : jsstring) :
  is_time_tag mm ss ff ->
  leftmost_tag (time_tag mm ss ff ++ post) [] mm ss ff post.
Proof. intros H. split; [now split|]. intros; simpl; lia. Qed.

(** The metadata example of the format: one metadata line, one timed
    line. *)
Example parse_metadata_and_cue :
  parse (lit ("[ar:Artist Name]" ++ nl ++ "[00:10.00]Hello")) =
  {| LRCParser.lyrics := [{| time := timeInSeconds 0 10 0; text := lit "Hello" |}];
     metadata := [(lit "ar", lit "Artist Name")] |}.
Proof. vm_compute. reflexivity. Qed.

(** A line with two tags is one cue: the second tag stays in the text. *)
Example parse_two_tags_one_cue :
  parse (lit "[00:01.00][00:02.00]la") =
  {| LRCParser.lyrics := [{| time := timeInSeconds 0 1 0; text := lit "[00:02.00]la" |}];
     metadata := [] |}.
Proof. vm_compute. reflexivity. Qed.

(** Lines ending in carriage return and line feed: the carriage return is
    outside the text group and out of the text. *)
Example parse_crlf :
  map text (LRCParser.lyrics
              (parse (lit "[00:02.00]Yo" ++ cr ++ lit nl ++ lit "[00:01.00]Hi" ++ cr))) =
  [lit "Hi"; lit "Yo"].
Proof. vm_compute. reflexivity. Qed.

(** A later key of the same name overwrites, a line of neither shape is
    dropped. *)
Example parse_last_write_wins :
  parse (lit ("[ti:One]" ++ nl ++ "just text" ++ nl ++ "[ti:Two]")) =
  {| LRCParser.lyrics := []; metadata := [(lit "ti", lit "Two")] |}.
Proof. vm_compute. reflexivity. Qed.

End ParserClaims.

(** C3 (as amended).  For every line whose leftmost time tag is
    [[mm:ss.ff]], the loop body pushes exactly one cue, and its time is
    minutes * 60 + seconds + milliseconds / 1000 as line 31 evaluates it, in
    double precision: it lies within [2 ^ -40] of the exact value.  The
    milliseconds of a two-digit fraction are the fraction padded on the
    right with one zero (ten times its value) and those of a three-digit
    fraction are the fraction itself.  [parse] of the one line
    [[00:01.50]Hi] is the single cue of time 1.5 and text [Hi]; the time of
    [[00:01.14]] is the double above the one nearest to 1.14; the line
    [[00:01.5]Hi], whose fraction has one digit, does not match the timed
    pattern and yields no cue. *)
Theorem parse_time_arithmetic :
  (forall line pre mm ss ff post,
      leftmost_tag line pre mm ss ff post ->
      exists cue,
        cues_of_line line = [cue] /\
        time cue = timeInSeconds (decimal mm) (decimal ss) (millis ff) /\
        (Qabs (time cue -
               (inject_Z (decimal mm) * 60 + inject_Z (decimal ss)
                + inject_Z (millis ff) / 1000)) <= 1 # 2 ^ 40)%Q /\
        (digits 2 ff -> millis ff = 10 * decimal ff) /\
        (digits 3 ff -> millis ff = decimal ff)) /\
  (exists cue,
      LRCParser.lyrics (parse (lit "[00:01.50]Hi")) = [cue] /\
      (time cue == 3 # 2)%Q /\ text cue = lit "Hi") /\
  (exists cue,
      LRCParser.lyrics (parse (lit "[00:01.14]Hi")) = [cue] /\
      time cue = (2567051787601183 # 2251799813685248)%Q /\
      literal 114 100 = (5134103575202365 # 4503599627370496)%Q /\
      (literal 114 100 < time cue)%Q) /\
  LRCParser.lyrics (parse (lit "[00:01.5]Hi")) = [].
Proof.
  split; [|split; [|split]].
  - intros line pre mm ss ff post H.
    eexists. split; [exact (cues_of_line_timed _ _ _ _ _ _ H)|].
    cbn [time]. split; [reflexivity|].
    destruct H as [[Ht _] _]. split; [exact (proj2 (tag_time_near _ _ _ Ht))|].
    split; [apply millis_2 | apply millis_3].
  - eexists. split; [vm_compute; reflexivity|]. split; reflexivity.
  - eexists. split; [vm_compute; reflexivity|]. cbn [time].
    split; [reflexivity|]. split; [vm_compute; reflexivity|]. vm_compute. reflexivity.
  - vm_compute. reflexivity.
Qed.

(** The time arithmetic at the line [[02:03.45]la]: 2 * 60 + 3 + 450 / 1000,
    the double nearest to 123.45. *)
Lemma parse_time_arithmetic_witness :
  exists cue,
    cues_of_line (lit "[02:03.45]la") = [cue] /\
    time cue = literal 12345 100 /\
    (Qabs (time cue - (123 + (450 # 1000))) <= 1 # 2 ^ 40)%Q.
Proof.
  destruct (proj1 parse_time_arithmetic (lit "[02:03.45]la") []
              (lit "02") (lit "03") (lit "45") (lit "la"))
    as (cue & Hc & Ht & Hn & _).
  - apply (first_position_is_leftmost (lit "02") (lit "03") (lit "45") (lit "la")).
    repeat split; try reflexivity. left. split; reflexivity.
  - exists cue. split; [exact Hc|]. split.
    + rewrite Ht. vm_compute. reflexivity.
    + rewrite Ht. vm_compute. discriminate.
Defined.

(** C3, the example as the claim has it: the fraction of [[00:01.5]Hi] has
    one digit, the line is no timed line, and what the parser records is the
    metadata entry of key [00] and value [01.5]. *)
Lemma one_digit_fraction_is_no_cue :
  parse (lit "[00:01.5]Hi") =
  {| LRCParser.lyrics := []; metadata := [(lit "00", lit "01.5")] |}.
Proof. vm_compute. reflexivity. Qed.

(** C4.  The cues [parse] returns are sorted by time, every adjacent pair
    is in order, and the cues of any one time stand in the order of their
    lines in the text. *)
Theorem parse_sorted_stable (lrcContent : jsstring) :
  Sorted by_time (LRCParser.lyrics (parse lrcContent)) /\
  (forall pre a b post,
      LRCParser.lyrics (parse lrcContent) = pre ++ a :: b :: post ->
      (time a <= time b)%Q) /\
  (forall q,
      filter (at_time q) (LRCParser.lyrics (parse lrcContent)) =
      filter (at_time q) (cues_in_file_order lrcContent)) /\
  Permutation (cues_in_file_order lrcContent) (LRCParser.lyrics (parse lrcContent)).
Proof.
  rewrite parse_lyrics. split; [apply sort_sorted|]. split; [|split].
  - intros pre a b post H. exact (Sorted_adjacent _ _ _ _ _ (sort_sorted _) H).
  - intros q. apply sort_stable.
  - apply sort_perm.
Qed.

(** C10 (as amended).  A line that holds a time tag anywhere yields exactly
    one cue; its time is read from the leftmost tag and its text is the
    trimmed remainder of the line after that tag, cut at the first carriage
    return, line separator or paragraph separator when the remainder holds
    one (so it is the whole trimmed remainder when it holds none); every
    such cue is among the cues of [parse].  The line [intro [00:01.00]Hi]
    yields the cue of time 1 and text [Hi]. *)
Theorem unanchored_timed_cue :
  (forall line pre mm ss ff post,
      tag_at line pre mm ss ff post -> exists cue, cues_of_line line = [cue]) /\
  (forall line pre mm ss ff post,
      leftmost_tag line pre mm ss ff post ->
      cues_of_line line =
      [{| time := timeInSeconds (decimal mm) (decimal ss) (millis ff);
          text := trim (before_terminator post) |}] /\
      (forallb is_dot post = true -> before_terminator post = post)) /\
  (forall lrcContent line cue,
      In line (split (code "010") lrcContent) ->
      In cue (cues_of_line line) ->
      In cue (LRCParser.lyrics (parse lrcContent))) /\
  (exists cue,
      LRCParser.lyrics (parse (lit "intro [00:01.00]Hi")) = [cue] /\
      (time cue == 1)%Q /\ text cue = lit "Hi").
Proof.
  split; [|split; [|split]].
  - intros line pre mm ss ff post H.
    destruct (tag_at_leftmost _ _ _ _ _ _ H) as (pre0 & mm0 & ss0 & ff0 & post0 & H0).
    eexists. exact (cues_of_line_timed _ _ _ _ _ _ H0).
  - intros line pre mm ss ff post H. split.
    + exact (cues_of_line_timed _ _ _ _ _ _ H).
    + apply before_terminator_all.
  - intros lrcContent line cue Hline Hcue.
    rewrite parse_lyrics. apply (Permutation_in _ (sort_perm _)).
    unfold cues_in_file_order. apply in_flat_map. now exists line.
  - eexists. split; [vm_compute; reflexivity|]. split; reflexivity.
Qed.

(** The tag of [x [00:07.25] y ] stands after two characters; the cue has
    time 7.25 and text [y]. *)
Lemma unanchored_timed_cue_witness :
  cues_of_line (lit "x [00:07.25] y ") =
  [{| time := timeInSeconds 0 7 250; text := lit "y" |}].
Proof.
  assert (H : leftmost_tag (lit "x [00:07.25] y ") (lit "x ")
                (lit "00") (lit "07") (lit "25") (lit " y ")).
  { split.
    - split; [|reflexivity]. repeat split; try reflexivity. left. split; reflexivity.
    - intros pre' mm' ss' ff' post' [(Hm & _) Hl].
      destruct pre' as [|c0 [|c1 pre']]; [| |simpl; lia]; exfalso.
      + unfold time_tag in Hl. discriminate Hl.
      + unfold time_tag in Hl. discriminate Hl. }
  exact (proj1 (proj1 (proj2 unanchored_timed_cue) _ _ _ _ _ _ H)).
Defined.

(** C10, the claim as stated: after the tag of the line below comes
    [Hi], a carriage return and [there]; the trimmed remainder keeps all of
    it, the cue only has [Hi]. *)
Lemma carriage_return_cuts_text :
  leftmost_tag (lit "[00:01.00]Hi" ++ cr ++ lit "there") []
    (lit "00") (lit "01") (lit "00") (lit "Hi" ++ cr ++ lit "there") /\
  map text (LRCParser.lyrics (parse (lit "[00:01.00]Hi" ++ cr ++ lit "there"))) = [lit "Hi"] /\
  trim (lit "Hi" ++ cr ++ lit "there") <> lit "Hi".
Proof.
  split; [|split].
  - apply (first_position_is_leftmost (lit "00") (lit "01") (lit "00")).
    repeat split; try reflexivity. left. split; reflexivity.
  - vm_compute. reflexivity.
  - vm_compute. discriminate.
Qed.

(** ** The cue tracker *)

Section CueTracker.

Lemma scan_spec (cues : list Cue) (t : Q) (n : nat) :
  (scan cues t n = -1 /\
   forall j c, (j < n)%nat -> nth_error cues j = Some c -> ~ (time c <= t)%Q) \/
  (exists i c,
      scan cues t n = Z.of_nat i /\ (i < n)%nat /\
      nth_error cues i = Some c /\ (time c <= t)%Q /\
      forall j c', (i < j < n)%nat -> nth_error cues j = Some c' -> ~ (time c' <= t)%Q).
Proof.
  induction n as [|i IH]; simpl.
  - left. split; [reflexivity|]. intros j c Hj. lia.
  - destruct (nth_error cues i) as [cue|] eqn:Hi.
    + destruct (Qle_bool (time cue) t) eqn:Hle.
      * right. exists i, cue. apply Qle_bool_iff in Hle.
        repeat split; auto. intros j c' Hj. lia.
      * assert (Hn : ~ (time cue <= t)%Q).
        { intros H. apply Qle_bool_iff in H. congruence. }
        destruct IH as [[Hr Hall]|(k & c & Hr & Hk & Hc & Hle' & Hall)].
        -- left. split; [exact Hr|]. intros j c Hj Hc.
           destruct (Nat.eq_dec j i) as [->|].
           ++ rewrite Hi in Hc. now injection Hc as <-.
           ++ apply (Hall j); auto; lia.
        -- right. exists k, c. repeat split; auto.
           intros j c' Hj Hc'.
           destruct (Nat.eq_dec j i) as [->|].
           ++ rewrite Hi in Hc'. now injection Hc' as <-.
           ++ apply (Hall j); auto; lia.
    + destruct IH as [[Hr Hall]|(k & c & Hr & Hk & Hc & Hle' & Hall)].
      * left. split; [exact Hr|]. intros j c Hj Hc.
        destruct (Nat.eq_dec j i) as [->|]; [congruence|]. apply (Hall j); auto; lia.
      * right. exists k, c. repeat split; auto.
        intros j c' Hj Hc'.
        destruct (Nat.eq_dec j i) as [->|]; [congruence|]. apply (Hall j); auto; lia.
Qed.

Lemma scan_range (cues : list Cue) (t : Q) (n : nat) :
  -1 <= scan cues t n < Z.of_nat n.
Proof.
  destruct (scan_spec cues t n) as [[-> _]|(i & c & -> & Hi & _)]; lia.
Qed.

Lemma currentIndex_range (cues : list Cue) (t : Q) :
  -1 <= currentIndex cues t < Z.of_nat (length cues).
Proof. apply scan_range. Qed.

Lemma sorted_first_least (first : Cue) (rest : list Cue) :
  Sorted by_time (first :: rest) -> Forall (by_time first) rest.
Proof.
  intros H. apply Sorted_StronglySorted in H.
  - now inversion H.
  - intros x y z. unfold by_time. apply Qle_trans.
Qed.

Lemma currentIndex_before_first (first : Cue) (rest : list Cue) (t : Q) :
  Sorted by_time (first :: rest) -> (t < time first)%Q ->
  currentIndex (first :: rest) t = -1.
Proof.
  intros Hs Ht.
  destruct (scan_spec (first :: rest) t (length (first :: rest)))
    as [[Hr _]|(i & c & _ & _ & Hc & Hle & _)]; [exact Hr|exfalso].
  assert (Hfc : by_time first c).
  { destruct i as [|i]; simpl in Hc.
    - injection Hc as <-. apply Qle_refl.
    - apply sorted_first_least in Hs. rewrite Forall_forall in Hs.
      apply Hs. eapply nth_error_In; eauto. }
  unfold by_time in Hfc.
  apply (Qlt_irrefl t). eapply Qlt_le_trans; [exact Ht|].
  eapply Qle_trans; eauto.
Qed.

Lemma updateLyrics_index (c : Ctx) (a : Audio) :
  audio (this c) = Some a -> LyricsPlayerApp.lyrics (this c) <> [] ->
  currentLyricIndex (this (after _updateLyrics c)) =
  currentIndex (LyricsPlayerApp.lyrics (this c)) (currentTime a) /\
  LyricsPlayerApp.lyrics (this (after _updateLyrics c)) = LyricsPlayerApp.lyrics (this c).
Proof.
  destruct c as [[au ly idx pl ui af lf] e]. cbn [this audio LyricsPlayerApp.lyrics].
  intros -> Hly. destruct ly as [|c0 ly]; [congruence|].
  unfold_methods.
  destruct (currentIndex (c0 :: ly) (let (_, ct, _, _, _, _) := a in ct) =? idx) eqn:E;
    unfold_methods; split; try reflexivity.
  now apply Z.eqb_eq in E.
Qed.

(** Under the guard of line 297 the method returns at once. *)
Lemma updateLyrics_guard (c : Ctx) :
  audio (this c) = None \/ LyricsPlayerApp.lyrics (this c) = [] ->
  after _updateLyrics c = c /\ issued _updateLyrics c = [].
Proof.
  destruct c as [[au ly idx pl ui af lf] e]. cbn [this audio LyricsPlayerApp.lyrics].
  intros [->| ->]; [|destruct au]; unfold_methods; split; reflexivity.
Qed.

End CueTracker.

(** C1 (as amended).  Run with audio loaded and a cue list that is not
    empty, [_updateLyrics] leaves as the stored index the largest index
    whose cue has a time at most the position of the element, and [-1] when
    no cue has; so it leaves [-1] when the position is before the first cue
    of a list sorted by time.  With no audio or with an empty cue list the
    method returns at its guard: nothing is computed and the stored index
    stays what it was.  With cues at 0, 5 and 10, whatever index was stored,
    it leaves 0 at 4.999, 1 at 5, -1 at -1 and 2 at 100. *)
Theorem updateLyrics_last_started :
  (forall c a,
      audio (this c) = Some a ->
      LyricsPlayerApp.lyrics (this c) <> [] ->
      ((currentLyricIndex (this (after _updateLyrics c)) = -1 /\
        forall j cue,
          nth_error (LyricsPlayerApp.lyrics (this c)) j = Some cue ->
          ~ (time cue <= currentTime a)%Q) \/
       (exists i cue,
           currentLyricIndex (this (after _updateLyrics c)) = Z.of_nat i /\
           nth_error (LyricsPlayerApp.lyrics (this c)) i = Some cue /\
           (time cue <= currentTime a)%Q /\
           forall j cue',
             (i < j)%nat -> nth_error (LyricsPlayerApp.lyrics (this c)) j = Some cue' ->
             ~ (time cue' <= currentTime a)%Q)) /\
      (forall first rest,
          LyricsPlayerApp.lyrics (this c) = first :: rest ->
          Sorted by_time (LyricsPlayerApp.lyrics (this c)) ->
          (currentTime a < time first)%Q ->
          currentLyricIndex (this (after _updateLyrics c)) = -1)) /\
  (forall c,
      audio (this c) = None \/ LyricsPlayerApp.lyrics (this c) = [] ->
      after _updateLyrics c = c) /\
  (forall idx,
      currentLyricIndex
        (this (after _updateLyrics (tracking cues_0_5_10 (literal 4999 1000) idx))) = 0 /\
      currentLyricIndex (this (after _updateLyrics (tracking cues_0_5_10 5 idx))) = 1 /\
      currentLyricIndex (this (after _updateLyrics (tracking cues_0_5_10 (-1) idx))) = -1 /\
      currentLyricIndex (this (after _updateLyrics (tracking cues_0_5_10 100 idx))) = 2).
Proof.
  split; [|split].
  - intros c a Ha Hly. destruct (updateLyrics_index c a Ha Hly) as [-> _]. split.
    + unfold currentIndex.
      destruct (scan_spec (LyricsPlayerApp.lyrics (this c)) (currentTime a)
                  (length (LyricsPlayerApp.lyrics (this c))))
        as [[Hr Hall]|(i & cue & Hr & Hi & Hc & Hle & Hall)].
      * left. split; [exact Hr|]. intros j cue Hc. apply (Hall j); auto.
        apply nth_error_Some. congruence.
      * right. exists i, cue. repeat split; auto.
        intros j cue' Hj Hc'. apply (Hall j); auto. split; [lia|].
        apply nth_error_Some. congruence.
    + intros first rest He Hs Ht. rewrite He in Hs |- *.
      now apply currentIndex_before_first.
  - intros c H. exact (proj1 (updateLyrics_guard c H)).
  - intros idx.
    assert (H : forall t,
               currentLyricIndex (this (after _updateLyrics (tracking cues_0_5_10 t idx))) =
               currentIndex cues_0_5_10 t).
    { intros t.
      exact (proj1 (updateLyrics_index (tracking cues_0_5_10 t idx)
                      (with_currentTime t (newAudio 1)) eq_refl ltac:(discriminate))). }
    rewrite !H. repeat split; vm_compute; reflexivity.
Qed.

(** One cue at 5 seconds and the element at 2: the stored index becomes
    [-1]. *)
Lemma updateLyrics_last_started_witness :
  currentLyricIndex
    (this (after _updateLyrics (tracking [{| time := 5; text := lit "B" |}] 2 0))) = -1.
Proof.
  refine (proj2 (proj1 updateLyrics_last_started
                   (tracking [{| time := 5; text := lit "B" |}] 2 0)
                   (with_currentTime 2 (newAudio 1)) eq_refl _)
            {| time := 5; text := lit "B" |} [] eq_refl _ _).
  - discriminate.
  - repeat constructor.
  - reflexivity.
Defined.

(** C1, the claim as stated.  With an empty cue list the method returns
    at its guard and the stored index is not made [-1]: it stays the 0 of
    the constructor, on a player set up so and on the host that loaded
    audio, pressed play and let the interval tick. *)
Lemma empty_cue_list_keeps_index :
  LyricsPlayerApp.lyrics (this (tracking [] 3 0)) = [] /\
  currentLyricIndex (this (after _updateLyrics (tracking [] 3 0))) = 0 /\
  exists p,
    lyricsPlayer (fst (step Tick loaded_playing)) = Some p /\
    LyricsPlayerApp.lyrics p = [] /\
    currentLyricIndex p = 0.
Proof.
  split; [reflexivity|]. split; [reflexivity|].
  eexists. split; [vm_compute; reflexivity|]. split; reflexivity.
Qed.

(** ** The player and the socket handler *)

Section Reconciliation.

Lemma Qgtb_lt (a b : Q) : Qgtb a b = true <-> (b < a)%Q.
Proof.
  unfold Qgtb. rewrite negb_true_iff. split; intros H.
  - apply Qnot_le_lt. intros Hle. apply Qle_bool_iff in Hle. congruence.
  - destruct (Qle_bool a b) eqn:E; [|reflexivity].
    apply Qle_bool_iff in E. exfalso. now apply (Qlt_not_le b a).
Qed.

Lemma Qgtb_not_lt (a b : Q) : Qgtb a b = false <-> ~ (b < a)%Q.
Proof.
  rewrite <- Qgtb_lt. destruct (Qgtb a b); split; intros H; congruence.
Qed.

(** A position is never more than a second away from itself. *)
Lemma Qgtb_self (q : Q) : Qgtb (Qabs (sub64 q q)) 1 = false.
Proof. rewrite sub64_self. reflexivity. Qed.

End Reconciliation.



(** The distance at the last bit.  A peer at 0.1 is told 1.1: the two
    doubles are a little more than one apart, their difference in double
    precision is one, and the position is not written.  A peer at 1.2 is
    told 2.2: the decimal numbers are one apart, the doubles a little more,
    so is their difference in double precision, and the position is
    written. *)
Example distance_at_the_last_bit :
  (1 < Qabs (literal 1 10 - literal 11 10))%Q /\
  sub64 (literal 1 10) (literal 11 10) = (-1)%Q /\
  ~ In (AudioSeek 1 (literal 11 10))
       (snd (handleSocketMessage (playerState false (literal 11 10) 1)
               (peer_at (literal 1 10)))) /\
  (Qabs ((12 # 10) - (22 # 10)) == 1)%Q /\
  (1 < Qabs (sub64 (literal 12 10) (literal 22 10)))%Q /\
  In (AudioSeek 1 (literal 22 10))
     (snd (handleSocketMessage (playerState false (literal 22 10) 1)
             (peer_at (literal 12 10)))).
Proof.
  split; [vm_compute; reflexivity|]. split; [vm_compute; reflexivity|]. split.
  - vm_compute. intros H. repeat (destruct H as [H|H]; [discriminate H|]). exact H.
  - split; [vm_compute; reflexivity|]. split; [vm_compute; reflexivity|].
    vm_compute. tauto.
Qed.

(** C5.  Handling the same [playerState] message a second time right after
    the first leaves the whole state of the peer as the first left it:
    position, volume, paused flag, playing flag and interval handle. *)
Theorem stateSync_idempotent (g : Game) (playing : bool) (pos vol : Q) :
  fst (handleSocketMessage (playerState playing pos vol)
         (fst (handleSocketMessage (playerState playing pos vol) g))) =
  fst (handleSocketMessage (playerState playing pos vol) g) /\
  transport_view
    (fst (handleSocketMessage (playerState playing pos vol)
            (fst (handleSocketMessage (playerState playing pos vol) g)))) =
  transport_view (fst (handleSocketMessage (playerState playing pos vol) g)).
Proof.
  assert (H : fst (handleSocketMessage (playerState playing pos vol)
                     (fst (handleSocketMessage (playerState playing pos vol) g))) =
              fst (handleSocketMessage (playerState playing pos vol) g)).
  { destruct g as [[p|] [gm ts us]]; [|unfold_methods; reflexivity].
    destruct p as [[a|] ly idx pl ui af lf]; [|unfold_methods; reflexivity].
    destruct a as [s ct d v pa oe].
    unfold_methods.
    destruct (Qgtb (Qabs (sub64 ct pos)) 1) eqn:E; destruct playing, pa, ui;
      unfold_methods; rewrite ?Qgtb_self, ?E; unfold_methods; reflexivity. }
  split; [exact H | now rewrite H].
Qed.

(** ** Loading audio *)

Lemma loadAudioFile_keeps_flags (c : Ctx) (file : File) :
  isPlaying (this (after (_loadAudioFile file) c)) = isPlaying (this c) /\
  updateInterval (this (after (_loadAudioFile file) c)) = updateInterval (this c) /\
  exists a, audio (this (after (_loadAudioFile file) c)) = Some a /\
            paused a = true /\ currentTime a = 0%Q.
Proof.
  destruct c as [[au ly idx pl ui af lf] [gm ts us]].
  destruct au as [[s ct d v pa oe]|]; destruct gm; unfold_methods;
    repeat split; eexists; repeat split.
Qed.

(** C6, on the code.  From Loaded-Playing (element running, playing flag
    set, interval 1 active), uploading another audio file pauses the old
    element and drops it, and when the bytes are read installs a new one,
    paused at 0; but the playing flag stays set and the interval is not
    cleared, neither while the file is read nor afterwards. *)
Theorem loadAudio_while_playing :
  transport_view loaded_playing = Some (Some (0%Q, 1%Q, false), true, Some 1%nat) /\
  transport_view (fst (step (AudioUpload (Some (song "b.mp3"))) loaded_playing)) =
    Some (None, true, Some 1%nat) /\
  transport_view (run (audio_upload (song "b.mp3")) loaded_playing) =
    Some (Some (0%Q, 1%Q, true), true, Some 1%nat) /\
  In (AudioPause 1) (run_trace (audio_upload (song "b.mp3")) loaded_playing) /\
  ~ In (ClearInterval 1) (run_trace (audio_upload (song "b.mp3")) loaded_playing).
Proof.
  split; [vm_compute; reflexivity|]. split; [vm_compute; reflexivity|].
  split; [vm_compute; reflexivity|]. split.
  - vm_compute. tauto.
  - vm_compute. intros H.
    repeat (destruct H as [H|H]; [discriminate H|]). exact H.
Qed.

(** ** The stored index *)

Section StoredIndex.








End StoredIndex.




(** ** Seeking *)

(** C8 (as amended).  With audio loaded, [_onSeek] writes the requested
    time to the element as it is given (the one position write of the
    call), leaves the playing flag, the paused flag and the interval as they
    were, and runs the cue tracker at once on the new position: the state it
    leaves is the one [_updateLyrics] leaves when run on the sought
    element. *)
Theorem seek_applies_time_as_given (c : Ctx) (a : Audio) (t : Q) :
  loaded (this c) a ->
  filter is_seek (issued (_onSeek t) c) = [AudioSeek (src a) t] /\
  isPlaying (this (after (_onSeek t) c)) = isPlaying (this c) /\
  updateInterval (this (after (_onSeek t) c)) = updateInterval (this c) /\
  (exists a', audio (this (after (_onSeek t) c)) = Some a' /\
              paused a' = paused a /\ currentTime a' = t) /\
  after (_onSeek t) c = after _updateLyrics (sought t a c) /\
  (LyricsPlayerApp.lyrics (this c) <> [] ->
   currentLyricIndex (this (after (_onSeek t) c)) =
   currentIndex (LyricsPlayerApp.lyrics (this c)) t).
Proof.
  destruct c as [[au ly idx pl ui af lf] [gm ts us]]. cbv [loaded this audio].
  intros ->. destruct a as [s ct d v pa oe]. unfold sought.
  destruct ly as [|c0 ly]; unfold_methods.
  - destruct gm; unfold_methods; repeat split; try (eexists; repeat split).
    all: intros H; congruence.
  - destruct (currentIndex (c0 :: ly) t =? idx) eqn:E; destruct gm; unfold_methods;
      repeat split; try (eexists; repeat split); intros _;
      try reflexivity; now apply Z.eqb_eq in E.
Qed.

(** Seeking to 7 on the host whose audio lasts 100 seconds. *)
Lemma seek_applies_time_as_given_witness :
  filter is_seek (snd (step (SeekTo 7) loaded_100s)) = [AudioSeek 1 7].
Proof.
  exact (proj1 (seek_applies_time_as_given
                  {| this := set_audio
                               (Some (with_duration (Some 100%Q) (with_onended true (newAudio 1))))
                               (set_audioFile (Some (lit "a.mp3")) constructor);
                     env := {| isGM := true; timerSeq := 0; urlSeq := 1 |} |}
                  (with_duration (Some 100%Q) (with_onended true (newAudio 1))) 7 eq_refl)).
Defined.

(** C8, the claim as stated.  The audio lasts 100 seconds and the slider
    asks for 150: the position written to the element is 150, not the
    clamped 100. *)
Lemma seek_beyond_duration_not_clamped :
  transport_view loaded_100s = Some (Some (0%Q, 1%Q, true), false, None) /\
  (exists p a, lyricsPlayer loaded_100s = Some p /\ audio p = Some a /\
               duration a = Some 100%Q) /\
  filter is_seek (snd (step (SeekTo 150) loaded_100s)) = [AudioSeek 1 150] /\
  clamp 100 150 = 100%Q /\
  ~ In (AudioSeek 1 (clamp 100 150)) (snd (step (SeekTo 150) loaded_100s)).
Proof.
  split; [vm_compute; reflexivity|]. split.
  - eexists. eexists. split; [vm_compute; reflexivity|]. split; reflexivity.
  - split; [vm_compute; reflexivity|]. split; [reflexivity|].
    vm_compute. intros H.
    repeat (destruct H as [H|H]; [discriminate H|]). exact H.
Qed.

(** ** Re-rendering *)

(** C9.  One run of the interval callback calls [_renderLyrics] at most
    once, and exactly when the stored index changes; when the tracker
    computes an index (audio loaded, cue list not empty) that is when the
    computed index differs from the stored one, which it then replaces, and
    otherwise nothing is rendered; a second run at the same position renders
    nothing. *)
Theorem render_only_on_index_change (c : Ctx) :
  (filter is_renderLyrics (issued tick c) = [RenderLyrics] \/
   filter is_renderLyrics (issued tick c) = []) /\
  (In RenderLyrics (issued tick c) <->
   currentLyricIndex (this (after tick c)) <> currentLyricIndex (this c)) /\
  (forall a,
      audio (this c) = Some a -> LyricsPlayerApp.lyrics (this c) <> [] ->
      (In RenderLyrics (issued tick c) <->
       currentIndex (LyricsPlayerApp.lyrics (this c)) (currentTime a)
       <> currentLyricIndex (this c)) /\
      currentLyricIndex (this (after tick c)) =
      currentIndex (LyricsPlayerApp.lyrics (this c)) (currentTime a)) /\
  (audio (this c) = None \/ LyricsPlayerApp.lyrics (this c) = [] ->
   ~ In RenderLyrics (issued tick c)) /\
  ~ In RenderLyrics (issued tick (after tick c)).
Proof.
  destruct c as [[au ly idx pl ui af lf] e].
  destruct au as [[s ct d v pa oe]|]; [destruct ly as [|c0 ly]|]; unfold_methods.
  - split; [right; reflexivity|]. split; [|split; [|split]];
      try (intros a [= <-] Hly; congruence);
      simpl; intuition (try discriminate; try congruence).
  - destruct (currentIndex (c0 :: ly) ct =? idx) eqn:E; unfold_methods.
    + rewrite ?E. unfold_methods. apply Z.eqb_eq in E.
      split; [right; reflexivity|]. split; [|split; [|split]];
        try (intros a [= <-] Hly; cbn [currentTime]);
        simpl; intuition (try discriminate; try congruence).
    + apply Z.eqb_neq in E. rewrite Z.eqb_refl. unfold_methods.
      split; [left; reflexivity|]. split; [|split; [|split]];
        try (intros a [= <-] Hly; cbn [currentTime]);
        simpl; intuition (try discriminate; try congruence).
  - split; [right; reflexivity|]. split; [|split; [|split]];
      try (intros a [= <-] Hly);
      simpl; intuition (try discriminate; try congruence).
Qed.

(* ================================================================== *)
(** * Further properties of the code *)

(** ** The parser, line by line *)

Section ParserMore.

Lemma search_timeRe_tag (line : jsstring) caps :
  search timeRe line = Some caps ->
  exists pre mm ss ff post, tag_at line pre mm ss ff post.
Proof.
  intros S. apply search_some in S as (pre & s' & -> & He & _).
  apply exec_timeRe_inv in He as (mm & ss & ff & post & Htag & -> & _).
  exists pre, mm, ss, ff, post. now split.
Qed.

Lemma search_timeRe_none (line : jsstring) :
  search timeRe line = None ->
  forall pre mm ss ff post, ~ tag_at line pre mm ss ff post.
Proof.
  intros S pre mm ss ff post [Htag Hline].
  apply search_none with (i := length pre) in S.
  - rewrite Hline, skipn_length_app, exec_timeRe_tag in S by assumption. discriminate.
  - rewrite Hline, length_app. lia.
Qed.

Lemma no_tag_search (line : jsstring) :
  (forall pre mm ss ff post, ~ tag_at line pre mm ss ff post) ->
  search timeRe line = None.
Proof.
  intros H. destruct (search timeRe line) eqn:S; [|reflexivity].
  apply search_timeRe_tag in S as (pre & mm & ss & ff & post & Ht).
  now apply H in Ht.
Qed.

Lemma cues_of_line_untimed (line : jsstring) :
  search timeRe line = None -> cues_of_line line = [].
Proof.
  intros S. unfold cues_of_line, parse_line. rewrite S.
  destruct (search metaRe line) as [[|k [|v [|x caps]]]|]; reflexivity.
Qed.

(** A cue of a line comes from the leftmost tag of that line. *)
Lemma cues_of_line_inv (line : jsstring) (cue : Cue) :
  In cue (cues_of_line line) ->
  exists pre mm ss ff post,
    leftmost_tag line pre mm ss ff post /\
    cues_of_line line = [cue] /\
    cue = {| time := timeInSeconds (decimal mm) (decimal ss) (millis ff);
             text := trim (before_terminator post) |}.
Proof.
  intros Hin. destruct (search timeRe line) eqn:S.
  - apply search_timeRe_tag in S as (pre & mm & ss & ff & post & Ht).
    apply tag_at_leftmost in Ht as (pre0 & mm0 & ss0 & ff0 & post0 & H0).
    exists pre0, mm0, ss0, ff0, post0. split; [exact H0|].
    rewrite (cues_of_line_timed _ _ _ _ _ _ H0) in Hin |- *.
    destruct Hin as [<-|[]]. split; reflexivity.
  - rewrite cues_of_line_untimed in Hin by assumption. destruct Hin.
Qed.

Lemma parse_cue_line (lrcContent : jsstring) (cue : Cue) :
  In cue (LRCParser.lyrics (parse lrcContent)) ->
  exists line, In line (split (code "010") lrcContent) /\ In cue (cues_of_line line).
Proof.
  rewrite parse_lyrics. intros H.
  apply (Permutation_in _ (Permutation_sym (sort_perm _))) in H.
  unfold cues_in_file_order in H. apply in_flat_map in H. exact H.
Qed.

Lemma trimStart_split (s : jsstring) :
  exists pre, s = pre ++ trimStart s /\ forallb is_white pre = true.
Proof.
  induction s as [|c s (pre & IH & Hpre)]; simpl.
  - now exists [].
  - destruct (is_white c) eqn:E.
    + exists (c :: pre). simpl. rewrite E, Hpre. split; [now f_equal | reflexivity].
    + now exists [].
Qed.

Lemma trimStart_head (s : jsstring) (c : N) (rest : jsstring) :
  trimStart s = c :: rest -> is_white c = false.
Proof.
  induction s as [|d s IH]; simpl; [discriminate|].
  destruct (is_white d) eqn:E; [exact IH|]. now intros [= <- _].
Qed.

Lemma trim_head (s : jsstring) (c : N) (rest : jsstring) :
  trim s = c :: rest -> is_white c = false.
Proof.
  unfold trim, trimEnd. intros H.
  destruct (trimStart_split (rev (trimStart s))) as (pre & Hsplit & _).
  apply (f_equal (@rev N)) in Hsplit. rewrite rev_involutive, rev_app_distr, H in Hsplit.
  simpl in Hsplit. now apply trimStart_head in Hsplit.
Qed.

Lemma trim_last (s : jsstring) (c : N) (rest : jsstring) :
  rev (trim s) = c :: rest -> is_white c = false.
Proof.
  unfold trim, trimEnd. rewrite rev_involutive. apply trimStart_head.
Qed.

Lemma trimStart_incl (s : jsstring) (c : N) : In c (trimStart s) -> In c s.
Proof.
  destruct (trimStart_split s) as (pre & H & _). intros Hin.
  rewrite H. apply in_or_app. now right.
Qed.

Lemma trim_incl (s : jsstring) (c : N) : In c (trim s) -> In c s.
Proof.
  unfold trim, trimEnd. intros H. apply in_rev in H.
  apply trimStart_incl in H. apply in_rev in H. now apply trimStart_incl.
Qed.

Lemma before_terminator_clean (s : jsstring) (c : N) :
  In c (before_terminator s) -> is_line_terminator c = false.
Proof.
  induction s as [|d s IH]; simpl; [intros []|].
  destruct (is_line_terminator d) eqn:E; [intros []|].
  intros [<-|H]; auto.
Qed.

End ParserMore.

(** X1.  Every cue [parse] returns has a time that is not negative and
    lies within [2 ^ -40] of a whole number of milliseconds from 0 to
    6039999 (99 minutes, 99 seconds, 999 milliseconds): the digits of the
    tag are not checked against 59. *)
Theorem parse_cue_time_range (lrcContent : jsstring) (cue : Cue) :
  In cue (LRCParser.lyrics (parse lrcContent)) ->
  (0 <= time cue)%Q /\
  exists ms : Z,
    0 <= ms <= 6039999 /\ (Qabs (time cue - (ms # 1000)) <= 1 # 2 ^ 40)%Q.
Proof.
  intros H. apply parse_cue_line in H as (line & _ & H).
  apply cues_of_line_inv in H as (pre & mm & ss & ff & post & [[Ht _] _] & _ & ->).
  destruct (tag_time_near _ _ _ Ht) as [H0 Hn]. destruct Ht as (Hm & Hs & Hf).
  apply decimal_2_range in Hm, Hs. apply millis_range in Hf.
  cbn [time]. split; [exact H0|].
  exists (1000 * (decimal mm * 60 + decimal ss) + millis ff). split; [lia|].
  assert (E : ((1000 * (decimal mm * 60 + decimal ss) + millis ff) # 1000 ==
               inject_Z (decimal mm) * 60 + inject_Z (decimal ss)
               + inject_Z (millis ff) / 1000)%Q).
  { unfold Qeq, Qdiv, Qmult, Qplus, Qinv, inject_Z. cbn [Qnum Qden].
    change (Z.pos (1 * 1 * (1 * 1000))) with 1000. lia. }
  rewrite E. exact Hn.
Qed.

(** The cue of [[99:99.999]x] is at 6039.999 seconds. *)
Lemma parse_cue_time_range_witness :
  (0 <= timeInSeconds 99 99 999)%Q /\
  exists ms : Z,
    0 <= ms <= 6039999 /\ (Qabs (timeInSeconds 99 99 999 - (ms # 1000)) <= 1 # 2 ^ 40)%Q.
Proof.
  exact (parse_cue_time_range (lit "[99:99.999]x")
           {| time := timeInSeconds 99 99 999; text := lit "x" |}
           (or_introl eq_refl)).
Defined.

(** X2.  The text of every cue [parse] returns is trimmed (it neither
    starts nor ends with white space) and holds no line terminator. *)
Theorem parse_cue_text_clean (lrcContent : jsstring) (cue : Cue) :
  In cue (LRCParser.lyrics (parse lrcContent)) ->
  (forall c rest, text cue = c :: rest -> is_white c = false) /\
  (forall c rest, rev (text cue) = c :: rest -> is_white c = false) /\
  (forall c, In c (text cue) -> is_line_terminator c = false).
Proof.
  intros H. apply parse_cue_line in H as (line & _ & H).
  apply cues_of_line_inv in H as (pre & mm & ss & ff & post & _ & _ & ->).
  cbn [text]. split; [|split].
  - apply trim_head.
  - apply trim_last.
  - intros c Hc. apply trim_incl in Hc. now apply before_terminator_clean in Hc.
Qed.

(** The text of the cue of [[00:01.00]  Hi  ] followed by a carriage
    return: its first character is no white space. *)
Lemma parse_cue_text_clean_witness :
  LRCParser.lyrics (parse (lit "[00:01.00]  Hi  " ++ cr)) =
    [{| time := timeInSeconds 0 1 0; text := lit "Hi" |}] /\
  is_white (code "H") = false.
Proof.
  split; [vm_compute; reflexivity|].
  exact (proj1 (parse_cue_text_clean (lit "[00:01.00]  Hi  " ++ cr)
                  {| time := timeInSeconds 0 1 0; text := lit "Hi" |}
                  (or_introl eq_refl))
               (code "H") (lit "i") eq_refl).
Defined.

(** X3.  A line yields a cue exactly when it holds a time tag, and never
    more than one; so [parse] returns at most as many cues as the text has
    lines, and none for a text without a tag. *)
Theorem parse_one_cue_per_tagged_line :
  (forall line,
      (exists cue, cues_of_line line = [cue]) /\
      (exists pre mm ss ff post, tag_at line pre mm ss ff post)
      \/
      cues_of_line line = [] /\
      (forall pre mm ss ff post, ~ tag_at line pre mm ss ff post)) /\
  (forall lrcContent,
      (length (LRCParser.lyrics (parse lrcContent))
       <= length (split (code "010") lrcContent))%nat).
Proof.
  split.
  - intros line. destruct (search timeRe line) eqn:S.
    + left. apply search_timeRe_tag in S as (pre & mm & ss & ff & post & Ht).
      split; [|now exists pre, mm, ss, ff, post].
      apply tag_at_leftmost in Ht as (pre0 & mm0 & ss0 & ff0 & post0 & H0).
      eexists. exact (cues_of_line_timed _ _ _ _ _ _ H0).
    + right. split; [now apply cues_of_line_untimed | now apply search_timeRe_none].
  - intros lrcContent. rewrite parse_lyrics.
    rewrite <- (Permutation_length (sort_perm _)). unfold cues_in_file_order.
    induction (split (code "010") lrcContent) as [|line lines IH]; simpl; [lia|].
    rewrite length_app.
    assert (length (cues_of_line line) <= 1)%nat; [|lia].
    destruct (search timeRe line) eqn:S.
    + apply search_timeRe_tag in S as (pre & mm & ss & ff & post & Ht).
      apply tag_at_leftmost in Ht as (pre0 & mm0 & ss0 & ff0 & post0 & H0).
      rewrite (cues_of_line_timed _ _ _ _ _ _ H0). simpl; lia.
    + rewrite cues_of_line_untimed by assumption. simpl; lia.
Qed.

(** ** Metadata *)

Section MetadataFacts.

Lemma eqb_eq (a b : jsstring) : JsString.eqb a b = true <-> a = b.
Proof.
  unfold JsString.eqb. destruct (list_eq_dec N.eq_dec a b); split; congruence.
Qed.

Lemma eqb_neq (a b : jsstring) : JsString.eqb a b = false <-> a <> b.
Proof.
  unfold JsString.eqb. destruct (list_eq_dec N.eq_dec a b); split; congruence.
Qed.

Lemma lookup_assign_same (k v : jsstring) (m : Metadata) :
  lookup k (assign k v m) = Some v.
Proof.
  induction m as [|[k' v'] m IH]; simpl.
  - now rewrite (proj2 (eqb_eq k k) eq_refl).
  - destruct (JsString.eqb k k') eqn:E; simpl.
    + now rewrite (proj2 (eqb_eq k k) eq_refl).
    + now rewrite E.
Qed.

Lemma lookup_assign_other (k k0 v : jsstring) (m : Metadata) :
  k0 <> k -> lookup k0 (assign k v m) = lookup k0 m.
Proof.
  intros Hne. induction m as [|[k' v'] m IH]; simpl.
  - now rewrite (proj2 (eqb_neq k0 k) Hne).
  - destruct (JsString.eqb k k') eqn:E; simpl.
    + apply eqb_eq in E. subst k'. now rewrite (proj2 (eqb_neq k0 k) Hne).
    + now rewrite IH.
Qed.

Lemma lookup_not_key (k : jsstring) (m : Metadata) :
  ~ In k (map fst m) -> lookup k m = None.
Proof.
  induction m as [|[k' v'] m IH]; simpl; [reflexivity|].
  intros H. destruct (JsString.eqb k k') eqn:E.
  - apply eqb_eq in E. subst. tauto.
  - apply IH. tauto.
Qed.

Lemma assign_keys (k v : jsstring) (m : Metadata) :
  (In k (map fst m) /\ map fst (assign k v m) = map fst m) \/
  (~ In k (map fst m) /\ map fst (assign k v m) = map fst m ++ [k]).
Proof.
  induction m as [|[k' v'] m IH]; simpl.
  - right. split; [tauto | reflexivity].
  - destruct (JsString.eqb k k') eqn:E.
    + apply eqb_eq in E. subst k'. left. simpl. split; [now left | reflexivity].
    + apply eqb_neq in E. destruct IH as [[Hin He]|[Hn He]]; simpl; rewrite He.
      * left. split; [now right | reflexivity].
      * right. split; [|reflexivity]. intros [H|H]; [congruence | contradiction].
Qed.

Lemma set_property_keys (k v : jsstring) (m : Metadata) :
  NoDup (map fst m) -> ~ In (lit "__proto__") (map fst m) ->
  NoDup (map fst (set_property k v m)) /\
  ~ In (lit "__proto__") (map fst (set_property k v m)).
Proof.
  intros Hnd Hnp. unfold set_property.
  destruct (JsString.eqb k (lit "__proto__")) eqn:E; [now split|].
  apply eqb_neq in E.
  destruct (assign_keys k v m) as [[Hin ->]|[Hn ->]]; [now split|].
  split.
  - apply NoDup_app; auto.
    + constructor; [intros []|constructor].
    + intros x Hx [<-|[]]. contradiction.
  - intros H. apply in_app_or in H as [H|[H|[]]]; [contradiction | congruence].
Qed.

Lemma parse_line_snd (ly : list Cue) (md : Metadata) (line : jsstring) :
  snd (parse_line (ly, md) line) = record_meta md line.
Proof.
  unfold record_meta, meta_of_line, parse_line.
  destruct (search timeRe line) as [[|g1 [|g2 [|g3 [|g4 [|g5 caps]]]]]|];
    try reflexivity.
  destruct (search metaRe line) as [[|k [|v [|x caps]]]|]; reflexivity.
Qed.

Lemma fold_parse_line_snd (lines : list jsstring) (acc : list Cue * Metadata) :
  snd (fold_left parse_line lines acc) = fold_left record_meta lines (snd acc).
Proof.
  revert acc; induction lines as [|line lines IH]; intros [ly md];
    cbn [fold_left snd]; [reflexivity|].
  rewrite IH. f_equal. destruct (parse_line (ly, md) line) as [ly' md'] eqn:E.
  rewrite <- (parse_line_snd ly md line), E. reflexivity.
Qed.

Lemma parse_metadata (lrcContent : jsstring) :
  metadata (parse lrcContent) =
  fold_left record_meta (split (code "010") lrcContent) [].
Proof.
  unfold parse.
  assert (H := fold_parse_line_snd (split (code "010") lrcContent) ([], [])).
  destruct (fold_left parse_line (split (code "010") lrcContent) ([], []))
    as [ly md]. exact H.
Qed.

Lemma fold_record_meta_keys (lines : list jsstring) (m : Metadata) :
  NoDup (map fst m) -> ~ In (lit "__proto__") (map fst m) ->
  NoDup (map fst (fold_left record_meta lines m)) /\
  ~ In (lit "__proto__") (map fst (fold_left record_meta lines m)).
Proof.
  revert m; induction lines as [|line lines IH]; intros m Hnd Hnp;
    cbn [fold_left]; [now split|].
  apply IH; unfold record_meta; destruct (meta_of_line line) as [[k v]|]; auto;
    now apply set_property_keys.
Qed.

Lemma fold_record_meta_keeps (lines : list jsstring) (m : Metadata) (k : jsstring) :
  (forall line v, In line lines -> meta_of_line line <> Some (k, v)) ->
  lookup k (fold_left record_meta lines m) = lookup k m.
Proof.
  revert m; induction lines as [|line lines IH]; intros m H; cbn [fold_left];
    [reflexivity|].
  rewrite IH by (intros l v Hl; apply H; now right).
  unfold record_meta. destruct (meta_of_line line) as [[k' v']|] eqn:E; [|reflexivity].
  unfold set_property. destruct (JsString.eqb k' (lit "__proto__")); [reflexivity|].
  apply lookup_assign_other. intros ->. apply (H line v'); [now left | exact E].
Qed.

End MetadataFacts.

(** X4.  The metadata [parse] returns has one entry per key, the key
    [__proto__] never becomes an entry, a key no metadata line carries is
    absent, and the value of a key is the value of the last metadata line
    that carries it. *)
Theorem parse_metadata_last_write_wins (lrcContent : jsstring) :
  NoDup (map fst (metadata (parse lrcContent))) /\
  lookup (lit "__proto__") (metadata (parse lrcContent)) = None /\
  (forall k,
      (forall line v, In line (split (code "010") lrcContent) ->
                      meta_of_line line <> Some (k, v)) ->
      lookup k (metadata (parse lrcContent)) = None) /\
  (forall before line after k v,
      split (code "010") lrcContent = before ++ line :: after ->
      meta_of_line line = Some (k, v) ->
      k <> lit "__proto__" ->
      (forall l v', In l after -> meta_of_line l <> Some (k, v')) ->
      lookup k (metadata (parse lrcContent)) = Some v).
Proof.
  rewrite parse_metadata.
  destruct (fold_record_meta_keys (split (code "010") lrcContent) [])
    as [Hnd Hnp]; [constructor | intros [] |].
  split; [exact Hnd|]. split; [now apply lookup_not_key|]. split.
  - intros k H. now rewrite fold_record_meta_keeps.
  - intros before line after k v -> Hm Hk Hafter.
    rewrite fold_left_app. cbn [fold_left].
    rewrite fold_record_meta_keeps by exact Hafter.
    unfold record_meta at 1. rewrite Hm. unfold set_property.
    rewrite (proj2 (eqb_neq _ _) Hk). apply lookup_assign_same.
Qed.

(** Two [ti] lines: the second value stays. *)
Lemma parse_metadata_last_write_wins_witness :
  lookup (lit "ti") (metadata (parse (lit ("[ti:One]" ++ nl ++ "[ti:Two]")))) =
  Some (lit "Two").
Proof.
  apply (proj2 (proj2 (proj2 (parse_metadata_last_write_wins
                                 (lit ("[ti:One]" ++ nl ++ "[ti:Two]")))))
           [lit "[ti:One]"] (lit "[ti:Two]") [] (lit "ti") (lit "Two")).
  - vm_compute. reflexivity.
  - vm_compute. reflexivity.
  - vm_compute. discriminate.
  - intros l v' [].
Defined.

(** ** The metadata pattern *)

Section MetadataLine.

Lemma exec_chr_nil (a : ascii) (re : list atom) : exec (chr a :: re) [] = None.
Proof.
  destruct (exec (chr a :: re) []) eqn:E; [|reflexivity].
  apply exec_cons_inv in E as (pre & post & caps' & Hs & Hlo & _).
  destruct pre; [simpl in Hlo; lia | discriminate].
Qed.

(** When the longer takes all fail, the quantifier ends on the first
    shorter one that lets the rest match. *)
Lemma backtrack_down {R} (k : jsstring -> option R) (s : jsstring)
      (lo m n0 : nat) (r : R) :
  (lo <= m)%nat -> (m <= n0)%nat ->
  k (skipn m s) = Some r ->
  (forall n, (m < n <= n0)%nat -> k (skipn n s) = None) ->
  backtrack k s lo n0 = Some (m, r).
Proof.
  intros Hlo Hm Hk. induction n0 as [|n0 IH]; intros Hnone.
  - assert (m = 0%nat) as -> by lia. rewrite backtrack_eq.
    replace (0 <? lo)%nat with false by (symmetry; apply Nat.ltb_ge; lia).
    now rewrite Hk.
  - rewrite backtrack_eq.
    replace (S n0 <? lo)%nat with false by (symmetry; apply Nat.ltb_ge; lia).
    destruct (Nat.eq_dec m (S n0)) as [->|Hne].
    + now rewrite Hk.
    + rewrite (Hnone (S n0)) by lia. apply IH; [lia|].
      intros n Hn. apply Hnone. lia.
Qed.

Lemma skipn_past (pre post : jsstring) (n : nat) :
  (length pre <= n)%nat -> skipn n (pre ++ post) = skipn (n - length pre) post.
Proof.
  revert n; induction pre as [|c pre IH]; intros n H; simpl in *.
  - now rewrite Nat.sub_0_r.
  - destruct n as [|n]; [lia|]. simpl. apply IH. lia.
Qed.

Lemma In_skipn (s : jsstring) (n : nat) (c : N) : In c (skipn n s) -> In c s.
Proof.
  revert n; induction s as [|d s IH]; intros [|n]; simpl; auto.
  intros H. right. eauto.
Qed.

Lemma exec_bracket_miss (s : jsstring) :
  ~ In (code "]") s -> exec [chr "]"] s = None.
Proof.
  destruct s as [|c s]; intros H; [apply exec_chr_nil|].
  apply exec_chr_miss. intros ->. apply H. now left.
Qed.

(** The value group before the closing bracket: it gives back what it took
    after the last bracket of the line. *)
Lemma exec_value (value suffix : jsstring) :
  forallb is_dot value = true ->
  ~ In (code "]") suffix ->
  exec [group is_dot 0 None; chr "]"] (value ++ code "]" :: suffix) = Some [value].
Proof.
  intros Hv Hs. rewrite exec_cons_eq. cbn [lo capt group].
  rewrite (backtrack_down _ _ 0%nat (length value) _ []).
  - now rewrite firstn_length_app.
  - lia.
  - unfold greedy. cbn [hi cls group]. rewrite (span_len_app _ _ _ Hv). lia.
  - rewrite skipn_length_app. now rewrite exec_chr_hit.
  - intros n Hn. rewrite skipn_past by lia.
    destruct (n - length value)%nat as [|j] eqn:E; [lia|].
    cbn [skipn]. apply exec_bracket_miss. intros H. apply Hs. now apply In_skipn in H.
Qed.

Lemma word_not_colon (c : N) : is_word c = true -> c <> code ":".
Proof. intros H ->. discriminate H. Qed.

(** At the opening bracket of a metadata line the pattern matches and
    captures the key and the value. *)
Lemma exec_metaRe_line (key value suffix : jsstring) :
  key <> [] -> forallb is_word key = true ->
  forallb is_dot value = true ->
  ~ In (code "]") suffix ->
  exec metaRe (meta_line key value ++ suffix) = Some [key; value].
Proof.
  intros Hk Hw Hv Hs. unfold metaRe, meta_line.
  repeat rewrite <- app_assoc.
  change (lit "[" ++ ?x) with (code "[" :: x). rewrite exec_chr_hit.
  change (lit ":" ++ ?x) with (code ":" :: x).
  change (lit "]" ++ ?x) with (code "]" :: x).
  rewrite exec_cons_eq. cbn [lo capt group].
  assert (Hg : greedy (group is_word 1 None) (key ++ code ":" :: value ++ code "]" :: suffix)
               = length key).
  { unfold greedy. cbn [hi cls group]. rewrite (span_len_app _ _ _ Hw).
    simpl. lia. }
  rewrite Hg, backtrack_eq.
  replace (length key <? 1)%nat with false
    by (symmetry; apply Nat.ltb_ge; destruct key; [congruence | simpl; lia]).
  rewrite skipn_length_app, exec_chr_hit, (exec_value _ _ Hv Hs).
  now rewrite firstn_length_app.
Qed.

End MetadataLine.

(** X5.  A line made of a metadata tag [[key:value]], the key one or more
    word characters, followed by anything without a closing bracket, and
    holding no time tag, is recorded as key and value, the value exactly as
    written, not trimmed. *)
Theorem metadata_line_recorded (key value suffix : jsstring) :
  key <> [] -> forallb is_word key = true ->
  forallb is_dot value = true ->
  ~ In (code "]") suffix ->
  (forall pre mm ss ff post, ~ tag_at (meta_line key value ++ suffix) pre mm ss ff post) ->
  meta_of_line (meta_line key value ++ suffix) = Some (key, value) /\
  cues_of_line (meta_line key value ++ suffix) = [] /\
  (key <> lit "__proto__" ->
   forall ly md,
     lookup key (snd (parse_line (ly, md) (meta_line key value ++ suffix))) = Some value).
Proof.
  intros Hk Hw Hv Hs Hnotag.
  assert (Ht := no_tag_search _ Hnotag).
  assert (Hm : meta_of_line (meta_line key value ++ suffix) = Some (key, value)).
  { unfold meta_of_line. rewrite Ht, search_eq.
    now rewrite (exec_metaRe_line _ _ _ Hk Hw Hv Hs). }
  split; [exact Hm|]. split; [now apply cues_of_line_untimed|].
  intros Hp ly md. rewrite parse_line_snd. unfold record_meta. rewrite Hm.
  unfold set_property. rewrite (proj2 (eqb_neq _ _) Hp). apply lookup_assign_same.
Qed.

(** The artist line with spaces around the name, ended by a carriage
    return. *)
Lemma metadata_line_recorded_witness :
  meta_of_line (meta_line (lit "ar") (lit " Artist Name ") ++ cr) =
  Some (lit "ar", lit " Artist Name ").
Proof.
  refine (proj1 (metadata_line_recorded (lit "ar") (lit " Artist Name ") cr _ _ _ _ _)).
  - discriminate.
  - reflexivity.
  - reflexivity.
  - vm_compute. intros [H|[]]. discriminate H.
  - apply search_timeRe_none. vm_compute. reflexivity.
Defined.

(** ** The cue tracker, further *)

Section TrackerMore.

Lemma currentIndex_spec (cues : list Cue) (t : Q) :
  (currentIndex cues t = -1 /\
   forall j c, nth_error cues j = Some c -> ~ (time c <= t)%Q) \/
  (exists i c,
      currentIndex cues t = Z.of_nat i /\
      nth_error cues i = Some c /\ (time c <= t)%Q /\
      forall j c', (i < j)%nat -> nth_error cues j = Some c' -> ~ (time c' <= t)%Q).
Proof.
  unfold currentIndex.
  destruct (scan_spec cues t (length cues)) as [[Hr Hall]|(i & c & Hr & Hi & Hc & Hle & Hall)].
  - left. split; [exact Hr|]. intros j c Hc. apply (Hall j); auto.
    apply nth_error_Some. congruence.
  - right. exists i, c. repeat split; auto.
    intros j c' Hj Hc'. apply (Hall j); auto. split; [lia|].
    apply nth_error_Some. congruence.
Qed.

Lemma sorted_nth_le (cues : list Cue) (i j : nat) (a b : Cue) :
  Sorted by_time cues -> (i <= j)%nat ->
  nth_error cues i = Some a -> nth_error cues j = Some b -> by_time a b.
Proof.
  revert i j. induction cues as [|c cues IH]; intros i j Hs Hij Ha Hb.
  - destruct i; discriminate.
  - destruct i as [|i], j as [|j]; simpl in *; try lia.
    + injection Ha as <-. injection Hb as <-. apply Qle_refl.
    + injection Ha as <-. apply sorted_first_least in Hs.
      rewrite Forall_forall in Hs. apply Hs. eapply nth_error_In; eauto.
    + apply (IH i j); auto; [now inversion Hs | lia].
Qed.

Lemma filter_none (p : Cue -> bool) (l : list Cue) :
  (forall c, In c l -> p c = false) -> filter p l = [].
Proof.
  induction l as [|c l IH]; simpl; intros H; [reflexivity|].
  rewrite (H c) by now left. apply IH. intros; apply H. now right.
Qed.

Lemma filter_prefix_length (p : Cue -> bool) (l : list Cue) (i : nat) :
  (i < length l)%nat ->
  (forall j c, nth_error l j = Some c -> (j <= i)%nat -> p c = true) ->
  (forall j c, nth_error l j = Some c -> (i < j)%nat -> p c = false) ->
  length (filter p l) = S i.
Proof.
  revert i; induction l as [|c l IH]; intros i Hi Ht Hf; simpl in Hi; [lia|].
  simpl. rewrite (Ht 0%nat c eq_refl) by lia. simpl. f_equal.
  destruct i as [|i].
  - rewrite filter_none; [reflexivity|].
    intros c' Hin. apply In_nth_error in Hin as [j Hj].
    apply (Hf (S j)); [exact Hj | lia].
  - apply IH; [lia| |].
    + intros j c' Hj Hle. apply (Ht (S j)); [exact Hj | lia].
    + intros j c' Hj Hlt. apply (Hf (S j)); [exact Hj | lia].
Qed.

Lemma started_iff (t : Q) (c : Cue) : started t c = true <-> (time c <= t)%Q.
Proof. unfold started. apply Qle_bool_iff. Qed.

Lemma started_false (t : Q) (c : Cue) : ~ (time c <= t)%Q -> started t c = false.
Proof.
  intros H. destruct (started t c) eqn:E; [|reflexivity].
  apply started_iff in E. contradiction.
Qed.

End TrackerMore.

(** X6.  The index the scan yields never goes back when the time goes
    forward, whatever the cue list. *)
Theorem currentIndex_monotone (cues : list Cue) (t1 t2 : Q) :
  (t1 <= t2)%Q -> currentIndex cues t1 <= currentIndex cues t2.
Proof.
  intros Ht.
  destruct (currentIndex_spec cues t1) as [[-> _]|(i & c & -> & Hc & Hle & _)].
  - apply currentIndex_range.
  - destruct (currentIndex_spec cues t2) as [[_ Hall]|(j & c' & -> & _ & _ & Hall)].
    + exfalso. apply (Hall i c Hc). eapply Qle_trans; eauto.
    + destruct (Nat.le_gt_cases i j) as [|Hlt]; [lia|].
      exfalso. apply (Hall i c Hlt Hc). eapply Qle_trans; eauto.
Qed.

(** From 4.999 to 5 over the cues at 0, 5 and 10. *)
Lemma currentIndex_monotone_witness :
  currentIndex cues_0_5_10 (4999 # 1000) <= currentIndex cues_0_5_10 5.
Proof.
  apply (currentIndex_monotone cues_0_5_10 (4999 # 1000) 5).
  vm_compute. discriminate.
Defined.

(** X7.  On a cue list sorted by time, the index the backward scan yields
    is the number of cues that have started, less one: every cue up to the
    active one has started and no later one has. *)
Theorem currentIndex_counts_started (cues : list Cue) (t : Q) :
  Sorted by_time cues ->
  currentIndex cues t = Z.of_nat (length (filter (started t) cues)) - 1 /\
  (forall j c, nth_error cues j = Some c ->
               (Z.of_nat j <= currentIndex cues t <-> (time c <= t)%Q)).
Proof.
  intros Hs.
  destruct (currentIndex_spec cues t) as [[Hr Hall]|(i & c & Hr & Hc & Hle & Hall)];
    rewrite Hr.
  - split.
    + rewrite filter_none; [reflexivity|].
      intros c Hin. apply In_nth_error in Hin as [j Hj].
      apply started_false. now apply (Hall j).
    + intros j c Hj. split; [lia|]. intros H. now apply (Hall j) in H.
  - assert (Hbefore : forall j c', nth_error cues j = Some c' -> (j <= i)%nat ->
                                   (time c' <= t)%Q).
    { intros j c' Hj Hji. eapply Qle_trans; [|exact Hle].
      exact (sorted_nth_le cues j i c' c Hs Hji Hj Hc). }
    split.
    + rewrite (filter_prefix_length (started t) cues i).
      * lia.
      * apply nth_error_Some. congruence.
      * intros j c' Hj Hji. apply started_iff. eauto.
      * intros j c' Hj Hij. apply started_false. eauto.
    + intros j c' Hj. split.
      * intros H. apply (Hbefore j); [exact Hj | lia].
      * intros H. destruct (Nat.le_gt_cases j i) as [|Hlt]; [lia|].
        exfalso. exact (Hall j c' Hlt Hj H).
Qed.

(** Two of the cues at 0, 5 and 10 have started at 7.5. *)
Lemma currentIndex_counts_started_witness :
  currentIndex cues_0_5_10 (15 # 2) =
  Z.of_nat (length (filter (started (15 # 2)) cues_0_5_10)) - 1.
Proof.
  apply (currentIndex_counts_started cues_0_5_10 (15 # 2)).
  repeat constructor; vm_compute; discriminate.
Defined.

(** ** The rendered lines *)

Section LinesFacts.





End LinesFacts.


(** ** The clock *)

Section ClockFacts.

Lemma digit_of_value (d : Z) :
  0 <= d <= 9 ->
  is_digit (48 + Z.to_N d)%N = true /\ digit_value (48 + Z.to_N d)%N = d.
Proof.
  intros H. unfold is_digit, digit_value. split.
  - apply andb_true_intro. split; apply N.leb_le; lia.
  - lia.
Qed.

Lemma digits_from_value (fuel : nat) (n : Z) (acc : jsstring) :
  0 <= n < 10 ^ Z.of_nat fuel ->
  fold_left (fun a c => 10 * a + digit_value c) (digits_from fuel n acc) 0 =
  fold_left (fun a c => 10 * a + digit_value c) acc n.
Proof.
  revert n acc; induction fuel as [|fuel IH]; intros n acc Hn.
  - simpl in *. now replace n with 0 by lia.
  - cbn [digits_from].
    assert (Hd : 0 <= n mod 10 <= 9) by (pose proof (Z.mod_pos_bound n 10); lia).
    destruct (digit_of_value _ Hd) as [_ Hv].
    destruct (n <? 10) eqn:E.
    + apply Z.ltb_lt in E. cbn [fold_left]. rewrite Hv.
      now rewrite Z.mod_small by lia.
    + apply Z.ltb_ge in E. rewrite IH.
      * cbn [fold_left]. rewrite Hv. f_equal.
        pose proof (Z.div_mod n 10). lia.
      * rewrite Nat2Z.inj_succ, Z.pow_succ_r in Hn by lia.
        split; [apply Z.div_pos; lia|]. apply Z.div_lt_upper_bound; lia.
Qed.

Lemma digits_from_digits (fuel : nat) (n : Z) (acc : jsstring) :
  0 <= n -> forallb is_digit acc = true ->
  forallb is_digit (digits_from fuel n acc) = true.
Proof.
  revert n acc; induction fuel as [|fuel IH]; intros n acc Hn Hacc; [exact Hacc|].
  cbn [digits_from].
  assert (Hd : 0 <= n mod 10 <= 9) by (pose proof (Z.mod_pos_bound n 10); lia).
  destruct (digit_of_value _ Hd) as [Hdig _].
  destruct (n <? 10).
  - cbn [forallb]. now rewrite Hdig.
  - apply IH; [apply Z.div_pos; lia|]. cbn [forallb]. now rewrite Hdig.
Qed.

Lemma digits_from_nonempty (fuel : nat) (n : Z) (acc : jsstring) :
  acc <> [] -> digits_from fuel n acc <> [].
Proof.
  revert n acc; induction fuel as [|fuel IH]; intros n acc H; [exact H|].
  cbn [digits_from]. destruct (n <? 10); [discriminate|]. apply IH. discriminate.
Qed.

Lemma toString_nonempty (n : Z) : toString n <> [].
Proof.
  unfold toString. destruct (n <? 0); [discriminate|].
  cbn [digits_from]. destruct (n <? 10); [discriminate|].
  apply digits_from_nonempty. discriminate.
Qed.

Lemma enough_fuel (n : Z) : 0 <= n -> 0 <= n < 10 ^ Z.of_nat (S (Z.to_nat (Z.log2 n))).
Proof.
  intros Hn. split; [exact Hn|].
  rewrite Nat2Z.inj_succ, Z2Nat.id by apply Z.log2_nonneg.
  destruct (Z.eq_dec n 0) as [->|Hne]; [reflexivity|].
  destruct (Z.log2_spec n) as [_ Hlt]; [lia|].
  eapply Z.lt_le_trans; [exact Hlt|].
  apply Z.pow_le_mono_l. pose proof (Z.log2_nonneg n). lia.
Qed.

(** Reading the decimal digits of a natural number gives the number
    back. *)
Lemma decimal_toString (n : Z) :
  0 <= n -> decimal (toString n) = n /\ forallb is_digit (toString n) = true.
Proof.
  intros Hn. unfold toString, decimal.
  replace (n <? 0) with false by (symmetry; apply Z.ltb_ge; lia).
  split.
  - rewrite digits_from_value by now apply enough_fuel. reflexivity.
  - now apply digits_from_digits.
Qed.

Lemma two_digits_below_100 : forallb two_digit_ok (seq 0 100) = true.
Proof. vm_compute. reflexivity. Qed.

(** Below 100, padding to two places gives the tens and the units. *)
Lemma padStart_two_digits (n : Z) :
  0 <= n < 100 ->
  digits 2 (padStart 2 (code "0") (toString n)) /\
  decimal (padStart 2 (code "0") (toString n)) = n.
Proof.
  intros Hn.
  assert (H := two_digits_below_100). rewrite forallb_forall in H.
  specialize (H (Z.to_nat n)). unfold two_digit_ok in H.
  rewrite Z2Nat.id in H by lia.
  assert (Hin : In (Z.to_nat n) (seq 0 100)) by (apply in_seq; lia).
  apply H, eqb_eq in Hin. rewrite Hin.
  set (k := Z.to_nat n).
  assert (Hk : (k < 100)%nat) by (unfold k; lia).
  assert (Ht : (k / 10 < 10)%nat) by (apply Nat.Div0.div_lt_upper_bound; lia).
  assert (Hu : (k mod 10 < 10)%nat) by (apply Nat.mod_upper_bound; lia).
  split.
  - split; [reflexivity|]. cbn [forallb]. unfold is_digit.
    rewrite !andb_true_r. apply andb_true_intro; split; apply andb_true_intro; split;
      apply N.leb_le; lia.
  - unfold decimal, digit_value. cbn [fold_left].
    pose proof (Nat.div_mod_eq k 10) as Hdm.
    assert (Hn' : n = Z.of_nat k) by (unfold k; lia).
    rewrite Hn'. clearbody k. lia.
Qed.

Lemma Qfloor_div60 (q : Q) : Qfloor (q / 60) = Qfloor q / 60.
Proof.
  destruct q as [n d]. unfold Qdiv, Qmult, Qinv, Qfloor. cbn [Qnum Qden].
  rewrite Z.mul_1_r, Pos2Z.inj_mul, Z.div_div by lia. reflexivity.
Qed.

Lemma Qfloor_minus_Z (q : Q) (m : Z) :
  Qfloor (q - 60 * inject_Z m) = Qfloor q - 60 * m.
Proof.
  destruct q as [n d]. unfold Qminus, Qplus, Qopp, Qmult, inject_Z, Qfloor.
  cbn [Qnum Qden].
  change (1 * 1)%positive with 1%positive. rewrite Pos.mul_1_r, Z.mul_1_r.
  rewrite Z.div_add by lia. lia.
Qed.

Lemma truncate_nonneg (q : Q) : (0 <= q)%Q -> truncate (q / 60) = Qfloor (q / 60).
Proof.
  intros H. unfold truncate.
  replace (Qle_bool 0 (q / 60)) with true; [reflexivity|].
  symmetry. apply Qle_bool_iff.
  apply Qle_shift_div_l; [reflexivity|]. now rewrite Qmult_0_l.
Qed.

Lemma Qfloor_nonneg (q : Q) : (0 <= q)%Q -> 0 <= Qfloor q.
Proof.
  intros H. change 0 with (Qfloor 0). now apply Qfloor_resp_le.
Qed.

End ClockFacts.

(** X9.  For a position that is not negative, [_formatTime] gives the
    minutes in decimal, a colon, and the seconds on exactly two digits, below
    60; read back, sixty times the minutes plus the seconds are the whole
    seconds of the position. *)
Theorem formatTime_reads_back (seconds : Q) :
  (0 <= seconds)%Q ->
  exists mm ss,
    _formatTime seconds = mm ++ lit ":" ++ ss /\
    mm <> [] /\ forallb is_digit mm = true /\
    digits 2 ss /\
    0 <= decimal ss < 60 /\
    60 * decimal mm + decimal ss = Qfloor seconds.
Proof.
  intros H. unfold _formatTime, remainder.
  rewrite (truncate_nonneg _ H), Qfloor_minus_Z, Qfloor_div60.
  pose proof (Qfloor_nonneg _ H) as HF.
  set (F := Qfloor seconds) in *.
  assert (Hm : 0 <= F / 60) by (apply Z.div_pos; lia).
  assert (Hs : 0 <= F - 60 * (F / 60) < 60)
    by (pose proof (Z.mod_pos_bound F 60); pose proof (Z.div_mod F 60); lia).
  destruct (decimal_toString _ Hm) as [Hdm Hdig].
  destruct (padStart_two_digits (F - 60 * (F / 60))) as [Hd2 Hds]; [lia|].
  eexists. eexists. split; [reflexivity|].
  split.
  - apply toString_nonempty.
  - split; [exact Hdig|]. split; [exact Hd2|]. rewrite Hds, Hdm. lia.
Qed.

(** 125.7 seconds are shown as 2:05. *)
Lemma formatTime_reads_back_witness :
  _formatTime (1257 # 10) = lit "2:05" /\
  exists mm ss,
    _formatTime (1257 # 10) = mm ++ lit ":" ++ ss /\
    60 * decimal mm + decimal ss = 125.
Proof.
  split; [vm_compute; reflexivity|].
  destruct (formatTime_reads_back (1257 # 10)) as (mm & ss & H1 & _ & _ & _ & _ & H2).
  - vm_compute. discriminate.
  - exists mm, ss. split; [exact H1 | exact H2].
Defined.


(** ** Who sends *)

(** X10.  A user who is not the GM never emits on the socket, whatever the
    control or event; and handling a socket message never emits, for the GM
    either: a received state is applied, not sent on. *)
Theorem only_the_GM_sends :
  (forall act g, isGM (genv g) = false -> filter is_emit (snd (step act g)) = []) /\
  (forall data g, filter is_emit (snd (handleSocketMessage data g)) = []).
Proof.
  split.
  - intros act [[p|] [gm ts us]] H; cbn in H; subst gm.
    + destruct p as [[[s ct d v pa oe]|] ly idx pl ui af lf]; destruct act;
        try match goal with data : Message |- _ => destruct data end;
      try match goal with w : Await |- _ => destruct w end;
        unfold_more; repeat (split_match; unfold_more); reflexivity.
    + destruct act;
        try match goal with data : Message |- _ => destruct data end;
      try match goal with w : Await |- _ => destruct w end;
        unfold_more; repeat (split_match; unfold_more); reflexivity.
  - intros data [[p|] [gm ts us]].
    + destruct p as [[[s ct d v pa oe]|] ly idx pl ui af lf]; destruct data;
        unfold_more; repeat (split_match; unfold_more); reflexivity.
    + destruct data; unfold_more; repeat (split_match; unfold_more); reflexivity.
Qed.

(** ** Intervals *)

Section Timers.

Lemma step_timers (act : Action) (g : Game) :
  running_after (snd (step act g)) (stored_timer g) = stored_timer (fst (step act g)).
Proof.
  destruct g as [[p|] [gm ts us]].
  - destruct p as [[[s ct d v pa oe]|] ly idx pl ui af lf]; destruct act;
      try match goal with data : Message |- _ => destruct data end;
      try match goal with w : Await |- _ => destruct w end;
      unfold_more;
      repeat (rewrite ?Nat.eqb_refl; split_match; unfold_more);
      rewrite ?Nat.eqb_refl; unfold_more; reflexivity.
  - destruct act;
      try match goal with data : Message |- _ => destruct data end;
      try match goal with w : Await |- _ => destruct w end;
      unfold_more;
      repeat (rewrite ?Nat.eqb_refl; split_match; unfold_more);
      rewrite ?Nat.eqb_refl; unfold_more; reflexivity.
Qed.

Lemma run_timers (acts : list Action) (g : Game) :
  running_after (run_trace acts g) (stored_timer g) = stored_timer (run acts g).
Proof.
  revert g; induction acts as [|a acts IH]; intros g; [reflexivity|].
  cbn [run_trace run]. unfold running_after in *.
  rewrite fold_left_app. rewrite <- IH. f_equal. apply step_timers.
Qed.

End Timers.

(** X11.  Along every run of the event loop from the start, the intervals
    that were set and not cleared are exactly the handle the player stores:
    at most one interval runs, and none runs that the player has lost the
    handle of. *)
Theorem no_interval_is_orphaned (gm : bool) (acts : list Action) :
  running_after (run_trace acts (game0 gm)) [] = stored_timer (run acts (game0 gm)) /\
  (length (running_after (run_trace acts (game0 gm)) []) <= 1)%nat.
Proof.
  assert (H := run_timers acts (game0 gm)). cbn [stored_timer game0 lyricsPlayer] in H.
  split; [exact H|]. rewrite H. unfold stored_timer.
  destruct (lyricsPlayer (run acts (game0 gm))) as [p|]; [|simpl; lia].
  destruct (updateInterval p); simpl; lia.
Qed.

(** ** Play and pause *)

(** X12.  With audio loaded, the play button flips the playing flag, sets
    the element running exactly when the flag ends up set, starts a fresh
    interval on play and clears the interval on pause, and touches neither
    position, volume, cue list nor stored index; a second click brings the
    flag back. *)
Theorem playPause_toggles (c : Ctx) (a : Audio) :
  loaded (this c) a ->
  isPlaying (this (after _onPlayPause c)) = negb (isPlaying (this c)) /\
  (exists a',
      audio (this (after _onPlayPause c)) = Some a' /\
      paused a' = isPlaying (this c) /\
      currentTime a' = currentTime a /\ volume a' = volume a) /\
  updateInterval (this (after _onPlayPause c)) =
    (if isPlaying (this c) then None else Some (S (timerSeq (env c)))) /\
  LyricsPlayerApp.lyrics (this (after _onPlayPause c)) = LyricsPlayerApp.lyrics (this c) /\
  currentLyricIndex (this (after _onPlayPause c)) = currentLyricIndex (this c) /\
  isPlaying (this (after _onPlayPause (after _onPlayPause c))) = isPlaying (this c).
Proof.
  destruct c as [[au ly idx pl ui af lf] [gm ts us]]. cbv [loaded this audio].
  intros ->. destruct a as [s ct d v pa oe].
  destruct pl, ui, gm; unfold_more;
    repeat split; try (eexists; repeat split).
Qed.

(** One click on a paused host. *)
Lemma playPause_toggles_witness :
  isPlaying (this (after _onPlayPause
                     {| this := set_audio (Some (newAudio 1)) constructor;
                        env := {| isGM := true; timerSeq := 0; urlSeq := 1 |} |})) = true.
Proof.
  exact (proj1 (playPause_toggles
                  {| this := set_audio (Some (newAudio 1)) constructor;
                     env := {| isGM := true; timerSeq := 0; urlSeq := 1 |} |}
                  (newAudio 1) eq_refl)).
Defined.

(** X13.  Without audio nothing moves: the play button only warns; play,
    pause, a seek, a tick of the interval and a received state message leave
    the player as it is and issue nothing. *)
Theorem nothing_without_audio (c : Ctx) :
  audio (this c) = None ->
  (after _onPlayPause c = c /\ issued _onPlayPause c = [Warn]) /\
  (after _play c = c /\ issued _play c = []) /\
  (after _pause c = c /\ issued _pause c = []) /\
  (forall t, after (_onSeek t) c = c /\ issued (_onSeek t) c = []) /\
  (after tick c = c /\ issued tick c = []) /\
  (forall playing pos vol,
      after (dispatch (playerState playing pos vol)) c = c /\
      issued (dispatch (playerState playing pos vol)) c = []).
Proof.
  destruct c as [[au ly idx pl ui af lf] [gm ts us]]. cbv [this audio].
  intros ->. unfold_more. repeat split.
Qed.

(** The freshly constructed player. *)
Lemma nothing_without_audio_witness :
  issued _onPlayPause
    {| this := constructor; env := {| isGM := true; timerSeq := 0; urlSeq := 0 |} |} = [Warn].
Proof.
  exact (proj2 (proj1 (nothing_without_audio
                         {| this := constructor;
                            env := {| isGM := true; timerSeq := 0; urlSeq := 0 |} |}
                         eq_refl))).
Defined.

(** ** Uploads *)

Section FileKinds.

Lemma startsWith_iff (prefix s : jsstring) :
  startsWith prefix s = true <-> exists rest, s = prefix ++ rest.
Proof.
  revert s; induction prefix as [|a prefix IH]; intros s; simpl.
  - split; [intros _; now exists s | reflexivity].
  - destruct s as [|b s]; [split; [discriminate | intros [rest H]; discriminate]|].
    rewrite andb_true_iff, N.eqb_eq, IH. split.
    + intros [-> [rest ->]]. now exists rest.
    + intros [rest [= -> ->]]. split; [reflexivity | now exists rest].
Qed.

Lemma endsWith_iff (suffix s : jsstring) :
  endsWith suffix s = true <-> exists pre, s = pre ++ suffix.
Proof.
  unfold endsWith. rewrite startsWith_iff. split.
  - intros [rest H]. exists (rev rest).
    apply (f_equal (@rev N)) in H. rewrite rev_involutive in H.
    now rewrite H, rev_app_distr, rev_involutive.
  - intros [pre ->]. exists (rev pre). now rewrite rev_app_distr.
Qed.

(** The steps of an upload, run one after the other with nothing in
    between, are the call run through. *)
Lemma audio_upload_steps (file : option File) (c : Ctx) :
  (_onAudioUpload_to_await file ;;
   match file with
   | Some f =>
       if startsWith (lit "audio/") (type f)
       then _loadAudioFile_from_await f ;; _onAudioUpload_from_await
       else ret tt
   | None => ret tt
   end) c = _onAudioUpload file c.
Proof.
  destruct c as [[au ly idx pl ui af lf] [gm ts us]].
  destruct file as [f|]; unfold_methods; [|reflexivity].
  destruct (startsWith (lit "audio/") (type f)); unfold_methods; [|reflexivity].
  destruct au as [[s ct d v pa oe]|], gm; unfold_methods; reflexivity.
Qed.

Lemma lrc_upload_steps (file : option File) (c : Ctx) :
  (_onLrcUpload_to_await file ;;
   match file with
   | Some f =>
       if endsWith (lit ".lrc") (name f)
       then _loadLrcFile f ;; _onLrcUpload_from_await
       else ret tt
   | None => ret tt
   end) c = _onLrcUpload file c.
Proof.
  destruct c as [[au ly idx pl ui af lf] [gm ts us]].
  destruct file as [f|]; unfold_methods; [|reflexivity].
  destruct (endsWith (lit ".lrc") (name f)); unfold_methods; [|reflexivity].
  destruct gm; unfold_methods; reflexivity.
Qed.

End FileKinds.

(** X14.  An upload without a file, an audio upload whose type does not
    begin with [audio/], and a lyrics upload whose name does not end in
    [.lrc] (in lower case) only warn and leave the player as it is; a file
    of the right kind becomes the named file of the player, and its content
    the element or the parsed cue list. *)
Theorem upload_guards (c : Ctx) :
  (after (_onAudioUpload None) c = c /\ issued (_onAudioUpload None) c = [Warn]) /\
  (after (_onLrcUpload None) c = c /\ issued (_onLrcUpload None) c = [Warn]) /\
  (forall f,
      (forall rest, type f <> lit "audio/" ++ rest) ->
      after (_onAudioUpload (Some f)) c = c /\ issued (_onAudioUpload (Some f)) c = [Warn]) /\
  (forall f,
      (forall pre, name f <> pre ++ lit ".lrc") ->
      after (_onLrcUpload (Some f)) c = c /\ issued (_onLrcUpload (Some f)) c = [Warn]) /\
  (forall f rest,
      type f = lit "audio/" ++ rest ->
      audioFile (this (after (_onAudioUpload (Some f)) c)) = Some (name f) /\
      audio (this (after (_onAudioUpload (Some f)) c)) =
        Some (with_onended true (newAudio (S (urlSeq (env c))))) /\
      LyricsPlayerApp.lyrics (this (after (_onAudioUpload (Some f)) c)) =
        LyricsPlayerApp.lyrics (this c)) /\
  (forall f pre,
      name f = pre ++ lit ".lrc" ->
      lrcFile (this (after (_onLrcUpload (Some f)) c)) = Some (name f) /\
      LyricsPlayerApp.lyrics (this (after (_onLrcUpload (Some f)) c)) =
        LRCParser.lyrics (parse (content f)) /\
      audio (this (after (_onLrcUpload (Some f)) c)) = audio (this c)).
Proof.
  destruct c as [[au ly idx pl ui af lf] [gm ts us]].
  split; [unfold_more; now split|]. split; [unfold_more; now split|].
  split; [|split; [|split]].
  - intros f Hf.
    assert (E : startsWith (lit "audio/") (type f) = false).
    { destruct (startsWith (lit "audio/") (type f)) eqn:E; [|reflexivity].
      apply startsWith_iff in E as [rest E]. now apply Hf in E. }
    unfold_more. rewrite E. unfold_more. now split.
  - intros f Hf.
    assert (E : endsWith (lit ".lrc") (name f) = false).
    { destruct (endsWith (lit ".lrc") (name f)) eqn:E; [|reflexivity].
      apply endsWith_iff in E as [pre E]. now apply Hf in E. }
    unfold_more. rewrite E. unfold_more. now split.
  - intros f rest Hf.
    assert (E : startsWith (lit "audio/") (type f) = true)
      by (apply startsWith_iff; now exists rest).
    unfold_more. rewrite E. destruct au as [[s ct d v pa oe]|], gm; unfold_more;
      repeat split.
  - intros f pre Hf.
    assert (E : endsWith (lit ".lrc") (name f) = true)
      by (apply endsWith_iff; now exists pre).
    unfold_more. rewrite E. destruct gm; unfold_more; repeat split.
Qed.

(** A file named in upper case is turned away. *)
Lemma upload_guards_witness :
  issued (_onLrcUpload (Some {| name := lit "SONG.LRC"; type := []; content := [] |}))
    {| this := constructor; env := {| isGM := true; timerSeq := 0; urlSeq := 0 |} |} = [Warn].
Proof.
  refine (proj2 (proj1 (proj2 (proj2 (proj2 (upload_guards
            {| this := constructor; env := {| isGM := true; timerSeq := 0; urlSeq := 0 |} |}))))
            {| name := lit "SONG.LRC"; type := []; content := [] |} _)).
  intros pre H. apply (f_equal (@rev N)) in H. rewrite rev_app_distr in H.
  vm_compute in H. discriminate H.
Defined.

(** ** Volume *)

(** X15.  The volume slider sets the volume of the element, stores it in
    the settings and, for the GM, sends it; with no audio loaded it stores
    and sends one half, whatever the slider says, and the player is left as
    it is. *)
Theorem volumeChange_saved (c : Ctx) (v : Q) (s0 : Settings) :
  (forall a,
      audio (this c) = Some a ->
      audio (this (after (_onVolumeChange v) c)) = Some (with_volume v a) /\
      s_volume (settings_after (issued (_onVolumeChange v) c) s0) = v /\
      (isGM (env c) = true ->
       sent (_onVolumeChange v) c = [Emit (playerState (isPlaying (this c)) (currentTime a) v)])) /\
  (audio (this c) = None ->
   after (_onVolumeChange v) c = c /\
   s_volume (settings_after (issued (_onVolumeChange v) c) s0) = (1 # 2)%Q /\
   (isGM (env c) = true ->
    sent (_onVolumeChange v) c = [Emit (playerState (isPlaying (this c)) 0 (1 # 2))])).
Proof.
  destruct c as [[au ly idx pl ui af lf] [gm ts us]]. cbv [this audio env isGM]. split.
  - intros a ->. destruct a as [s ct d v0 pa oe].
    destruct gm; unfold_more; repeat split; intros H; try discriminate H; reflexivity.
  - intros ->. destruct gm; unfold_more; repeat split; intros H; try discriminate H;
      reflexivity.
Qed.

(** ** Reconciliation, further *)

(** X16.  After a [playerState] message on a peer with audio loaded, the
    element is paused exactly when the message says not playing, its volume
    is the incoming one, and its position is the incoming one or one the
    handler measures as at most one second from it: a second message of the
    same position would not move it.  The playing flag and the interval
    follow when the element had to be started or paused and stay as they
    were otherwise.  The cue list and the stored index are not touched: a
    position taken from the message is not followed by a cue-tracker
    evaluation. *)
Theorem stateSync_converges
        (g : Game) (p : App) (a : Audio) (playing : bool) (pos vol : Q) :
  lyricsPlayer g = Some p ->
  loaded p a ->
  exists p' a',
    lyricsPlayer (fst (handleSocketMessage (playerState playing pos vol) g)) = Some p' /\
    audio p' = Some a' /\
    paused a' = negb playing /\
    volume a' = vol /\
    (currentTime a' = pos \/
     currentTime a' = currentTime a /\ (Qabs (sub64 (currentTime a) pos) <= 1)%Q) /\
    (Qabs (sub64 (currentTime a') pos) <= 1)%Q /\
    (paused a = true -> playing = true ->
     isPlaying p' = true /\ updateInterval p' = Some (S (timerSeq (genv g)))) /\
    (paused a = false -> playing = false ->
     isPlaying p' = false /\ updateInterval p' = None) /\
    (paused a = negb playing ->
     isPlaying p' = isPlaying p /\ updateInterval p' = updateInterval p) /\
    LyricsPlayerApp.lyrics p' = LyricsPlayerApp.lyrics p /\
    currentLyricIndex p' = currentLyricIndex p.
Proof.
  intros Hp Ha. destruct g as [lp [gm ts us]]. cbn in Hp. subst lp.
  destruct p as [au ly idx pl ui af lf]. cbv [loaded audio] in Ha. subst au.
  destruct a as [s ct d v pa oe].
  assert (Hself : (Qabs (sub64 pos pos) <= 1)%Q) by (rewrite sub64_self; discriminate).
  unfold_more.
  destruct (Qgtb (Qabs (sub64 ct pos)) 1) eqn:E;
    [|apply Qgtb_not_lt, Qnot_lt_le in E];
    destruct playing, pa, ui; unfold_more;
    eexists; eexists;
    (split; [reflexivity|]); (split; [reflexivity|]); (split; [reflexivity|]);
    (split; [reflexivity|]);
    (split; [first [left; reflexivity | right; split; [reflexivity | exact E]]|]);
    (split; [first [exact Hself | exact E]|]);
    repeat split; intros; try discriminate; reflexivity.
Qed.

(** A paused peer at 0 told that the host plays at 42. *)
Lemma stateSync_converges_witness :
  exists p' a',
    lyricsPlayer (fst (handleSocketMessage (playerState true 42 (1 # 2))
                         {| lyricsPlayer := Some (set_audio (Some (newAudio 1)) constructor);
                            genv := {| isGM := false; timerSeq := 0; urlSeq := 1 |} |}))
      = Some p' /\
    audio p' = Some a' /\ paused a' = false /\ currentTime a' = 42%Q /\ isPlaying p' = true.
Proof.
  destruct (stateSync_converges
              {| lyricsPlayer := Some (set_audio (Some (newAudio 1)) constructor);
                 genv := {| isGM := false; timerSeq := 0; urlSeq := 1 |} |}
              _ (newAudio 1) true 42 (1 # 2) eq_refl eq_refl)
    as (p' & a' & H1 & H2 & H3 & _ & _ & _ & H6 & _).
  exists p', a'. split; [exact H1|]. split; [exact H2|]. split; [exact H3|].
  vm_compute in H1. injection H1 as <-. injection H2 as <-.
  split; [reflexivity|]. apply H6; reflexivity.
Defined.

(** ** Broadcasts *)

(** X17.  When the GM uploads a lyrics file, exactly one message goes out,
    [loadLrc] with the text and the name of the file; a peer that handles it
    holds the same cue list and file name as the host, whatever it held
    before, and keeps its audio, playing flag, interval and stored index. *)
Theorem lyrics_broadcast_round_trip (host : Ctx) (f : File) (peer : Game) :
  isGM (env host) = true ->
  endsWith (lit ".lrc") (name f) = true ->
  sent (_onLrcUpload (Some f)) host = [Emit (loadLrc (content f) (name f))] /\
  exists p,
    lyricsPlayer (fst (handleSocketMessage (loadLrc (content f) (name f)) peer)) = Some p /\
    LyricsPlayerApp.lyrics p =
      LyricsPlayerApp.lyrics (this (after (_onLrcUpload (Some f)) host)) /\
    LyricsPlayerApp.lyrics p = LRCParser.lyrics (parse (content f)) /\
    lrcFile p = lrcFile (this (after (_onLrcUpload (Some f)) host)) /\
    audio p = audio (player_of peer) /\
    isPlaying p = isPlaying (player_of peer) /\
    updateInterval p = updateInterval (player_of peer) /\
    currentLyricIndex p = currentLyricIndex (player_of peer).
Proof.
  destruct host as [[au ly idx pl ui af lf] [gm ts us]]. cbv [env isGM].
  intros -> E. destruct peer as [[[au' ly' idx' pl' ui' af' lf']|] [gm' ts' us']];
    unfold_more; rewrite E; unfold_more;
    (split; [reflexivity|]); eexists; repeat split.
Qed.

(** The GM uploads [a.lrc]; a peer without a player handles the message. *)
Lemma lyrics_broadcast_round_trip_witness :
  exists p,
    lyricsPlayer (fst (handleSocketMessage (loadLrc (lit "[00:01.00]Hi") (lit "a.lrc"))
                         (game0 false))) = Some p /\
    LyricsPlayerApp.lyrics p = LRCParser.lyrics (parse (lit "[00:01.00]Hi")).
Proof.
  destruct (proj2 (lyrics_broadcast_round_trip
                     {| this := constructor;
                        env := {| isGM := true; timerSeq := 0; urlSeq := 0 |} |}
                     {| name := lit "a.lrc"; type := []; content := lit "[00:01.00]Hi" |}
                     (game0 false) eq_refl eq_refl))
    as (p & H1 & _ & H3 & _).
  exists p. split; [exact H1 | exact H3].
Defined.

(** X18.  When the GM uploads an audio file, exactly one message goes out,
    [loadAudio] with the bytes, the name and the type of the file; a peer
    that handles it pauses the element it had, holds a new element, paused at
    0 with the default volume and no [ended] listener, under the name of the
    file, and keeps its cue list, stored index, playing flag and interval. *)
Theorem audio_broadcast_round_trip (host : Ctx) (f : File) (peer : Game) :
  isGM (env host) = true ->
  startsWith (lit "audio/") (type f) = true ->
  sent (_onAudioUpload (Some f)) host = [Emit (loadAudio (content f) (name f) (type f))] /\
  (forall old, audio (player_of peer) = Some old ->
               In (AudioPause (src old))
                  (snd (handleSocketMessage (loadAudio (content f) (name f) (type f)) peer))) /\
  exists p,
    lyricsPlayer (fst (handleSocketMessage (loadAudio (content f) (name f) (type f)) peer))
      = Some p /\
    audio p = Some (newAudio (S (urlSeq (genv peer)))) /\
    audioFile p = Some (name f) /\
    LyricsPlayerApp.lyrics p = LyricsPlayerApp.lyrics (player_of peer) /\
    currentLyricIndex p = currentLyricIndex (player_of peer) /\
    isPlaying p = isPlaying (player_of peer) /\
    updateInterval p = updateInterval (player_of peer).
Proof.
  destruct host as [[au ly idx pl ui af lf] [gm ts us]]. cbv [env isGM].
  intros -> E. split; [|split].
  - unfold_more. rewrite E. destruct au as [[s ct d v pa oe]|]; unfold_more; reflexivity.
  - intros old. destruct peer as [[[au' ly' idx' pl' ui' af' lf']|] [gm' ts' us']];
      unfold_more; [|discriminate].
    intros ->. destruct old as [s ct d v pa oe]. unfold_more. simpl. tauto.
  - destruct peer as [[[[[s ct d v pa oe]|] ly' idx' pl' ui' af' lf']|] [gm' ts' us']];
      unfold_more; eexists; repeat split.
Qed.

(** The GM uploads [a.mp3]; a playing peer handles the message. *)
Lemma audio_broadcast_round_trip_witness :
  sent (_onAudioUpload (Some (song "a.mp3")))
    {| this := constructor; env := {| isGM := true; timerSeq := 0; urlSeq := 0 |} |} =
  [Emit (loadAudio [] (lit "a.mp3") (lit "audio/mpeg"))].
Proof.
  exact (proj1 (audio_broadcast_round_trip
                  {| this := constructor;
                     env := {| isGM := true; timerSeq := 0; urlSeq := 0 |} |}
                  (song "a.mp3") peer_at_100 eq_refl eq_refl)).
Defined.

(** X19.  With audio loaded, each of play, pause, seek and volume change by
    the GM sends exactly one message: the playing flag, the position and the
    volume of the player as the operation leaves it. *)
Theorem state_broadcast_is_current (c : Ctx) (a : Audio) :
  isGM (env c) = true ->
  loaded (this c) a ->
  sent _play c = [Emit (state_message (this (after _play c)))] /\
  sent _pause c = [Emit (state_message (this (after _pause c)))] /\
  (forall t, sent (_onSeek t) c = [Emit (state_message (this (after (_onSeek t) c)))]) /\
  (forall v,
      sent (_onVolumeChange v) c = [Emit (state_message (this (after (_onVolumeChange v) c)))]).
Proof.
  destruct c as [[au ly idx pl ui af lf] [gm ts us]]. cbv [env isGM loaded this audio].
  intros -> ->. destruct a as [s ct d v pa oe].
  split; [destruct ui; unfold_more; reflexivity|].
  split; [destruct ui; unfold_more; reflexivity|]. split.
  - intros t. destruct ly as [|c0 ly]; unfold_more; [reflexivity|].
    destruct (currentIndex (c0 :: ly) t =? idx); unfold_more; reflexivity.
  - intros v'. unfold_more. reflexivity.
Qed.

(** The GM seeks to 30 on a loaded host. *)
Lemma state_broadcast_is_current_witness :
  sent (_onSeek 30)
    {| this := set_audio (Some (newAudio 1)) constructor;
       env := {| isGM := true; timerSeq := 0; urlSeq := 1 |} |} =
  [Emit (playerState false 30 1)].
Proof.
  exact (proj1 (proj2 (proj2 (state_broadcast_is_current
                  {| this := set_audio (Some (newAudio 1)) constructor;
                     env := {| isGM := true; timerSeq := 0; urlSeq := 1 |} |}
                  (newAudio 1) eq_refl eq_refl))) 30%Q).
Defined.

(** ** Saved settings *)

Section SettingsFacts.

Lemma truthy_nonzero (q : Q) : truthy q = true -> ~ (q == 0)%Q.
Proof.
  unfold truthy. rewrite negb_true_iff. intros H E.
  apply Qeq_bool_iff in E. congruence.
Qed.

End SettingsFacts.

(** X20.  What [_saveState] stores is the volume of the element and the
    two file names.  Restoring it on a later element sets that volume, except
    that a stored volume of zero is taken for no volume: the element keeps
    the volume it has, and [getData] shows one half; so the volume shown is
    never zero. *)
Theorem saved_volume_restore (c c2 : Ctx) (a a2 : Audio) (s0 : Settings) :
  loaded (this c) a ->
  loaded (this c2) a2 ->
  s_volume (settings_after (issued _saveState c) s0) = volume a /\
  s_audioFileName (settings_after (issued _saveState c) s0) = audioFile (this c) /\
  s_lrcFileName (settings_after (issued _saveState c) s0) = lrcFile (this c) /\
  audio (this (after (_initializeFromSavedState
                        (settings_after (issued _saveState c) s0)) c2)) =
    Some (if truthy (volume a) then with_volume (volume a) a2 else a2) /\
  d_volume (getData (settings_after (issued _saveState c) s0) (this c2)) =
    (if truthy (volume a) then volume a else (1 # 2)%Q) /\
  ~ (d_volume (getData (settings_after (issued _saveState c) s0) (this c2)) == 0)%Q.
Proof.
  destruct c as [[au ly idx pl ui af lf] [gm ts us]].
  destruct c2 as [[au2 ly2 idx2 pl2 ui2 af2 lf2] [gm2 ts2 us2]].
  cbv [loaded this audio]. intros -> ->.
  destruct a as [s ct d v pa oe], a2 as [s2 ct2 d2 v2 pa2 oe2].
  unfold_more. split; [reflexivity|]. split; [reflexivity|]. split; [reflexivity|].
  destruct (truthy v) eqn:E; unfold_more; repeat split.
  - now apply truthy_nonzero.
  - discriminate.
Qed.

(** A session saved at volume 0 and a new element at full volume. *)
Lemma saved_volume_restore_witness :
  audio (this (after (_initializeFromSavedState
                        (settings_after
                           (issued _saveState
                              {| this := set_audio (Some (with_volume 0 (newAudio 1))) constructor;
                                 env := {| isGM := true; timerSeq := 0; urlSeq := 1 |} |})
                           defaultSettings))
                     {| this := set_audio (Some (newAudio 2)) constructor;
                        env := {| isGM := true; timerSeq := 0; urlSeq := 2 |} |})) =
  Some (newAudio 2).
Proof.
  exact (proj1 (proj2 (proj2 (proj2 (saved_volume_restore
            {| this := set_audio (Some (with_volume 0 (newAudio 1))) constructor;
               env := {| isGM := true; timerSeq := 0; urlSeq := 1 |} |}
            {| this := set_audio (Some (newAudio 2)) constructor;
               env := {| isGM := true; timerSeq := 0; urlSeq := 2 |} |}
            (with_volume 0 (newAudio 1)) (newAudio 2) defaultSettings eq_refl eq_refl))))).
Defined.

(** ** Closing, and the end of the audio *)

(** X21.  Closing the window clears the interval and pauses the element
    and leaves the playing flag as it was.  The [ended] listener clears the
    flag and the interval, and the GM then sends the state with the flag
    cleared.  Only an element made by a local upload has that listener: on
    an element made from a [loadAudio] message the end of the audio leaves
    the flag and the interval as they were. *)
Theorem close_and_ended (c : Ctx) :
  (updateInterval (this (after close c)) = None /\
   isPlaying (this (after close c)) = isPlaying (this c) /\
   (forall a, audio (this c) = Some a ->
              audio (this (after close c)) = Some (with_paused true a))) /\
  (updateInterval (this (after on_ended c)) = None /\
   isPlaying (this (after on_ended c)) = false /\
   audio (this (after on_ended c)) = audio (this c) /\
   (isGM (env c) = true ->
    sent on_ended c = [Emit (state_message (set_isPlaying false (this c)))])) /\
  (forall a,
      audio (this c) = Some a -> onended a = false ->
      exists p,
        lyricsPlayer (fst (step Ended {| lyricsPlayer := Some (this c); genv := env c |}))
          = Some p /\
        isPlaying p = isPlaying (this c) /\
        updateInterval p = updateInterval (this c) /\
        audio p = Some (with_paused true a)).
Proof.
  destruct c as [[au ly idx pl ui af lf] [gm ts us]]. split; [|split].
  - destruct au as [[s ct d v pa oe]|], ui; unfold_more; repeat split;
      intros a H; try discriminate H; injection H as <-; reflexivity.
  - destruct au as [[s ct d v pa oe]|], ui, gm; unfold_more; repeat split;
      intros H; try discriminate H; reflexivity.
  - cbv [this audio env]. intros a -> Ho. destruct a as [s ct d v pa oe].
    cbv [onended] in Ho. subst oe. unfold_more. eexists. repeat split.
Qed.

(** ** What every reachable state keeps *)

Section Consistency.





Lemma step_player (act : Action) (g : Game) (p' : App) :
  lyricsPlayer (fst (step act g)) = Some p' ->
  lyricsPlayer g = None \/ exists p, lyricsPlayer g = Some p.
Proof. destruct (lyricsPlayer g) as [p|]; [right; now exists p | now left]. Qed.



End Consistency.



(** ** Texts put together, and the ends of lines *)

Section TextFacts.

Lemma split_nonempty (sep : N) (s : jsstring) : split sep s <> [].
Proof.
  destruct s as [|c s]; simpl; [discriminate|].
  destruct (c =? sep)%N; [discriminate|]. destruct (split sep s); discriminate.
Qed.

Lemma split_app (sep : N) (a b : jsstring) :
  split sep (a ++ sep :: b) = split sep a ++ split sep b.
Proof.
  induction a as [|c a IH]; simpl.
  - now rewrite N.eqb_refl.
  - destruct (c =? sep)%N; [now rewrite IH|].
    rewrite IH. destruct (split sep a) as [|l ls] eqn:E; [|reflexivity].
    now apply split_nonempty in E.
Qed.

Lemma before_terminator_cr (s : jsstring) :
  before_terminator (s ++ cr) = before_terminator s.
Proof.
  induction s as [|c s IH]; simpl; [reflexivity|].
  destruct (is_line_terminator c); [reflexivity | now rewrite IH].
Qed.

(** A tag of the line with a carriage return added is a tag of the line. *)
Lemma tag_at_cr (line pre mm ss ff post : jsstring) :
  tag_at (line ++ cr) pre mm ss ff post ->
  exists post', post = post' ++ cr /\ tag_at line pre mm ss ff post'.
Proof.
  intros [Htag H]. induction post as [|x post' _] using rev_ind.
  - exfalso. rewrite app_nil_r in H. unfold time_tag in H.
    rewrite !app_assoc in H. apply app_inj_tail in H as [_ H]. discriminate H.
  - rewrite !app_assoc in H. apply app_inj_tail in H as [H Hx]. subst x.
    exists post'. split; [reflexivity|]. split; [exact Htag|].
    now rewrite <- !app_assoc in H.
Qed.

Lemma leftmost_tag_cr (line pre mm ss ff post : jsstring) :
  leftmost_tag line pre mm ss ff post ->
  leftmost_tag (line ++ cr) pre mm ss ff (post ++ cr).
Proof.
  intros [[Htag ->] Hleft]. split.
  - split; [exact Htag|]. now rewrite <- !app_assoc.
  - intros pre' mm' ss' ff' post' H.
    apply tag_at_cr in H as (post'' & _ & H). eapply Hleft; eauto.
Qed.

End TextFacts.

(** X23.  The parser works line by line: the cues of two texts joined by a
    line feed are the cues of the first followed by those of the second, so
    [parse] of the joined text returns the cues of both, and its metadata is
    that of the first text with the lines of the second recorded on top. *)
Theorem parse_joined_texts (a b : jsstring) :
  cues_in_file_order (a ++ lit nl ++ b) = cues_in_file_order a ++ cues_in_file_order b /\
  Permutation (LRCParser.lyrics (parse (a ++ lit nl ++ b)))
              (LRCParser.lyrics (parse a) ++ LRCParser.lyrics (parse b)) /\
  metadata (parse (a ++ lit nl ++ b)) =
    fold_left record_meta (split (code "010") b) (metadata (parse a)).
Proof.
  assert (Hsplit : split (code "010") (a ++ lit nl ++ b) =
                   split (code "010") a ++ split (code "010") b)
    by apply split_app.
  split; [|split].
  - unfold cues_in_file_order. now rewrite Hsplit, flat_map_app.
  - rewrite !parse_lyrics. rewrite <- !sort_perm.
    unfold cues_in_file_order. now rewrite Hsplit, flat_map_app.
  - now rewrite !parse_metadata, Hsplit, fold_left_app.
Qed.

(** X24.  A carriage return at the end of a line changes nothing of what
    the line contributes as a cue: a text with CR LF line ends gives the same
    cues as the text with LF line ends. *)
Theorem carriage_return_at_line_end (line : jsstring) :
  cues_of_line (line ++ cr) = cues_of_line line.
Proof.
  destruct (search timeRe line) eqn:S.
  - apply search_timeRe_tag in S as (pre & mm & ss & ff & post & Ht).
    apply tag_at_leftmost in Ht as (pre0 & mm0 & ss0 & ff0 & post0 & H0).
    rewrite (cues_of_line_timed _ _ _ _ _ _ H0).
    rewrite (cues_of_line_timed _ _ _ _ _ _ (leftmost_tag_cr _ _ _ _ _ _ H0)).
    now rewrite before_terminator_cr.
  - rewrite (cues_of_line_untimed _ S). apply cues_of_line_untimed.
    apply no_tag_search. intros pre mm ss ff post H.
    apply tag_at_cr in H as (post' & _ & H).
    exact (search_timeRe_none _ S _ _ _ _ _ H).
Qed.
